(** * Stream Health Core: record store, default reducer pipeline, events API

    A shallow embedding of the Go sources of healthy-streams
    and the properties its specification states about them.

    - [data]     : event envelope and the task event constructor
    - [health]   : conditions, records and the concurrent record store
    - [reducers] : the default reducer pipeline and its stats windows
    - [api]      : the server-sent-events handler of a stream

    Conventions.  A [time.Time] is its millisecond epoch as a [Z], a
    [time.Duration] its nanosecond count as a [Z].  A Go pointer to a record
    is a location in an explicit heap, so that "the same Record" means the
    same location.  Code that is not part of the modelled sources is either
    taken as a parameter or modelled from the specification, and says so. *)

From stdpp Require Import gmap strings list.
From Stdlib Require Import ZArith Lia.

Set Default Proof Using "Type".
Set Warnings "-register-all,-clear-no-such-hyp".

(** A [uuid.UUID] is a 128-bit value. *)
Definition UUID := N.
(** Milliseconds since the Unix epoch. *)
Definition Time := Z.
(** Nanoseconds. *)
Definition Duration := Z.

(** [time.Time{}], January 1 of year 1, in milliseconds since the epoch. *)
Definition zeroTime : Time := (-62135596800000)%Z.

(* ===================================================================== *)
(** * Package data: the event envelope                                     *)
(* ===================================================================== *)

Module data.

Definition EventType := string.

(** [const EventTypeTask EventType = "task"] *)
Definition EventTypeTask : EventType := "task".

(** Modelled from the spec: the constant [EventTypeTranscode] is declared
    outside the modelled sources; section 3 lists its tag as
    [transcode]. *)
Definition EventTypeTranscode : EventType := "transcode".

Record Base := mkBase {
  ID : UUID;
  Type_ : EventType;
  Timestamp : Time;
  ManifestID : string;
}.

(** The source of fresh identifiers and of wall-clock time that
    [newEventBase] reads. *)
Record Clock := mkClock { newUUID : UUID; now : Time }.

(** Modelled from the spec: [newEventBase(type, manifestID)] is declared
    outside the modelled sources; it fills the envelope of section 3 with a
    fresh ID, the given type tag, the current time and the given
    manifest. *)
Definition newEventBase (w : Clock) (type : EventType) (mid : string) : Base :=
  {| ID := newUUID w; Type_ := type; Timestamp := now w; ManifestID := mid |}.

Record TaskInfo := mkTaskInfo {
  TaskID : string;
  TaskType : string;
  Snapshot : option string;
}.

Record TaskEvent := mkTaskEvent {
  TaskBase : Base;
  Task : TaskInfo;
}.

Definition NewTaskEvent (w : Clock) (info : TaskInfo) : TaskEvent :=
  {| TaskBase := newEventBase w EventTypeTranscode "";
     Task := info |}.

(** The [Event] interface: what every event exposes is its envelope. *)
Inductive Event :=
| OfTask (e : TaskEvent)
| OfBase (b : Base).

Definition base (e : Event) : Base :=
  match e with
  | OfTask t => TaskBase t
  | OfBase b => b
  end.

Definition EventID (e : Event) : UUID := ID (base e).
Definition EventTimestamp (e : Event) : Time := Timestamp (base e).

End data.

(* ===================================================================== *)
(** * Package health: conditions, records, the record store                *)
(* ===================================================================== *)

Module health.

Definition ConditionType := string.

(** The statistics payload of a condition, rates by window; its content is
    not modelled. *)
Inductive ByWindow := OpaqueStats (tag : nat).

(** A tri-state status is a [*bool]: [None] is [unknown]. *)
Record Condition := mkCondition {
  Type_ : ConditionType;
  Status : option bool;
  Frequency : option ByWindow;
  LastProbeTime : Time;
  LastTransitionTime : Time;
}.

(** Modelled from the spec: [NewCondition(type, ts, status, frequency, last)]
    is declared outside the modelled sources.  Following sections 3 and 4.7
    the new condition carries the given status, is probed at [ts], and keeps
    the transition time of [last] when the status value is the one [last]
    had (a missing [last] counts as [unknown] since the zero time).  A
    missing statistics payload is taken over from [last]. *)
Definition NewCondition (condType : ConditionType) (ts : Time)
    (status : option bool) (frequency : option ByWindow)
    (last : option Condition) : Condition :=
  let prevStatus := last ≫= Status in
  let prevTransition := default zeroTime (LastTransitionTime <$> last) in
  {| Type_ := condType;
     Status := status;
     Frequency := match frequency with
                  | Some _ => frequency
                  | None => last ≫= Frequency
                  end;
     LastProbeTime := ts;
     LastTransitionTime :=
       if decide (status = prevStatus) then prevTransition else ts |}.

Record Status_ := mkStatus {
  StatusManifestID : string;
  Healthy : Condition;
  StatusConditions : list Condition;
}.

(** The per-reducer state is an untyped value in the source. *)
Inductive ReducerState := Opaque (tag : nat).

Record Record_ := mkRecord {
  ManifestID : string;
  Conditions : list ConditionType;
  PastEvents : list data.Event;
  ReducersState : gmap nat ReducerState;
  LastStatus : Status_;
}.

(** [NewRecord] builds the record value; the pointer to it is allocated by
    [allocRecord] below. *)
Definition NewRecord (mid : string) (conditions : list ConditionType) : Record_ :=
  {| ManifestID := mid;
     Conditions := conditions;
     PastEvents := [];
     ReducersState := ∅;
     LastStatus :=
       {| StatusManifestID := mid;
          Healthy := NewCondition "" zeroTime None None None;
          StatusConditions :=
            (λ cond, NewCondition cond zeroTime None None None) <$> conditions |} |}.

(** ** The store

    [RecordStorage] holds a [sync.Map] from manifest ID to [*Record].  The
    state is the heap of records (a pointer is an index into it) and the
    map.  Nothing is ever removed from either. *)

Abbreviation loc := nat.

Record RecordStorage := mkStorage {
  heap : list Record_;
  records : gmap string loc;
}.

Definition emptyStorage : RecordStorage := {| heap := []; records := ∅ |}.

(** [&Record{...}]: a fresh location holding the record. *)
Definition allocRecord (r : Record_) (s : RecordStorage) : loc * RecordStorage :=
  (length (heap s), {| heap := heap s ++ [r]; records := records s |}).

(** [sync.Map.Load] *)
Definition Load (key : string) (s : RecordStorage) : option loc * RecordStorage :=
  (records s !! key, s).

(** [sync.Map.LoadOrStore]: the existing value and [true] when the key is
    present, otherwise stores and returns the given value and [false]. *)
Definition LoadOrStore (key : string) (value : loc) (s : RecordStorage)
    : (loc * bool) * RecordStorage :=
  match records s !! key with
  | Some actual => ((actual, true), s)
  | None => ((value, false), {| heap := heap s; records := <[key := value]> (records s) |})
  end.

(** [Get] returns [(saved, true)] as [Some saved] and [(nil, false)] as
    [None]. *)
Definition Get (manifestId : string) (s : RecordStorage) : option loc * RecordStorage :=
  match Load manifestId s with
  | (Some saved, s') => (Some saved, s')
  | (None, s') => (None, s')
  end.

Definition GetOrCreate (manifestId : string) (conditions : list ConditionType)
    (s : RecordStorage) : loc * RecordStorage :=
  match Get manifestId s with
  | (Some saved, s1) => (saved, s1)
  | (None, s1) =>
      let '(new, s2) := allocRecord (NewRecord manifestId conditions) s1 in
      let '((actual, loaded), s3) := LoadOrStore manifestId new s2 in
      if loaded then (actual, s3) else (new, s3)
  end.

(** Repeated calls for one manifest, each with its own conditions list. *)
Fixpoint callAll (m : string) (Cs : list (list ConditionType)) (s : RecordStorage)
    : list loc * RecordStorage :=
  match Cs with
  | [] => ([], s)
  | C :: Cs' =>
      let '(p, s1) := GetOrCreate m C s in
      let '(ps, s2) := callAll m Cs' s1 in
      (p :: ps, s2)
  end.

(** A store in which every record of the heap is the one its manifest is
    bound to: no record is unreachable.  Sequential calls keep a store this
    way; a caller that loses a race leaves an unreachable record behind. *)
Definition reachable (s : RecordStorage) : Prop :=
  ∀ p rec, heap s !! p = Some rec → records s !! ManifestID rec = Some p.

(** Dereferencing a pointer. *)
Definition deref (p : loc) (s : RecordStorage) : option Record_ := heap s !! p.

(** ** Concurrent callers

    [GetOrCreate] is not one atomic action: between its [Get] and its
    [LoadOrStore] other goroutines may run.  A caller is a small state
    machine over the two atomic map operations; a schedule picks which
    caller moves next. *)

Inductive Caller :=
| Calling (manifestId : string) (conditions : list ConditionType)
| Created (manifestId : string) (new : loc)
| Returned (manifestId : string) (result : loc).

(** One atomic action of a caller.  The allocation of [NewRecord] touches
    no shared state and is merged with the [Get] that precedes it. *)
Definition stepCaller (c : Caller) (s : RecordStorage) : Caller * RecordStorage :=
  match c with
  | Calling m conds =>
      match Get m s with
      | (Some saved, s1) => (Returned m saved, s1)
      | (None, s1) =>
          let '(new, s2) := allocRecord (NewRecord m conds) s1 in
          (Created m new, s2)
      end
  | Created m new =>
      let '((actual, loaded), s1) := LoadOrStore m new s in
      (Returned m (if loaded then actual else new), s1)
  | Returned m r => (Returned m r, s)
  end.

Definition Config : Type := list Caller * RecordStorage.

(** Caller number [i] takes one step; a number that names no caller is
    skipped. *)
Definition stepAt (i : nat) (cfg : Config) : Config :=
  match cfg.1 !! i with
  | Some c =>
      let '(c', s') := stepCaller c cfg.2 in
      (<[i := c']> cfg.1, s')
  | None => cfg
  end.

Definition run (schedule : list nat) (cfg : Config) : Config :=
  foldl (λ cfg i, stepAt i cfg) cfg schedule.

Definition spawn (calls : list (string * list ConditionType)) : list Caller :=
  (λ c, Calling c.1 c.2) <$> calls.

(** The invariant of a run: every caller that has returned holds the
    location the map binds its manifest to. *)
Definition agreed (cfg : Config) : Prop :=
  ∀ i m r, cfg.1 !! i = Some (Returned m r) → records cfg.2 !! m = Some r.

End health.

(* ===================================================================== *)
(** * Package reducers: the default pipeline                               *)
(* ===================================================================== *)

Module reducers.

Definition Nanosecond : Duration := 1%Z.
Definition Second : Duration := (1000000000 * Nanosecond)%Z.
Definition Minute : Duration := (60 * Second)%Z.
Definition Hour : Duration := (60 * Minute)%Z.

Definition statsWindows : list Duration :=
  [(1 * Minute)%Z; (10 * Minute)%Z; (1 * Hour)%Z].

(** [statsWindows[len(statsWindows)-1]]; indexing out of range panics,
    which is [None] here. *)
Definition maxStatsWindow_opt : option Duration :=
  statsWindows !! (length statsWindows - 1).

Definition maxStatsWindow : Duration := default 0%Z maxStatsWindow_opt.

(** The reducers a pipeline is made of.  A [Pipeline] is a slice of
    reducers and is itself a reducer. *)
Inductive Reducer :=
| StreamStateReducer (exchange : string)
| TranscodeReducer (golpExchange : string) (shardPrefixes : list string)
| MultistreamReducer
| MediaServerMetrics
| HealthReducer
| StatsReducer (windows : list Duration)
| Pipeline (p : list Reducer).

Definition Default (golpExchange : string) (shardPrefixes : list string)
    (streamStateExchange : string) : Reducer :=
  let p := [] in
  let p := if decide (streamStateExchange ≠ "")
           then p ++ [StreamStateReducer streamStateExchange] else p in
  Pipeline (p ++ [Pipeline [
    TranscodeReducer golpExchange shardPrefixes;
    MultistreamReducer;
    MediaServerMetrics;
    HealthReducer;
    StatsReducer statsWindows ]]).

Definition DefaultStarTimeOffset : Duration := maxStatsWindow.

(** Modelled from the spec: the [Pipeline] type and its [Reduce] method are
    declared outside the modelled sources.  By section 4.2 a pipeline
    invokes its reducers left to right, so the order in which the
    elementary reducers of a (possibly nested) pipeline run is the order of
    its leaves. *)
Fixpoint runOrder (r : Reducer) : list Reducer :=
  match r with
  | Pipeline p => (fix go (l : list Reducer) : list Reducer :=
                     match l with
                     | [] => []
                     | r' :: l' => runOrder r' ++ go l'
                     end) p
  | _ => [r]
  end.

(** The reducers that derive conditions from one kind of event. *)
Definition isPrimitive (r : Reducer) : bool :=
  match r with
  | StreamStateReducer _ | TranscodeReducer _ _
  | MultistreamReducer | MediaServerMetrics => true
  | _ => false
  end.

(** ** Health aggregation *)

(** The three values of a condition status. *)
Definition unknown : option bool := None.

(** Modelled from the spec: [HealthReducer] is only named in the modelled
    sources, its body is declared elsewhere.  Section 3, invariant 5 with
    the rules of section 4.7: one pass over the sub-conditions remembers
    whether a [true] and whether a [false] status was seen; the aggregate
    is [unknown] when neither was, [false] when a [false] was, and [true]
    otherwise. *)
Definition scanStatuses (conds : list health.Condition) : bool * bool :=
  foldl (λ (seen : bool * bool) (c : health.Condition),
           match health.Status c with
           | Some true => (true, seen.2)
           | Some false => (seen.1, true)
           | None => seen
           end) (false, false) conds.

(** Whether a condition has the known status [v]. *)
Definition isStatus (v : bool) (c : health.Condition) : bool :=
  match health.Status c with
  | Some b => Bool.eqb b v
  | None => false
  end.

(** Modelled from the spec: the aggregate status of section 3, invariant 5,
    read off the two flags of the pass. *)
Definition aggregate (conds : list health.Condition) : option bool :=
  match scanStatuses conds with
  | (_, true) => Some false
  | (true, false) => Some true
  | (false, false) => unknown
  end.

(** Modelled from the spec: section 4.7, [Healthy.lastProbeTime] is the
    largest probe time of the sub-conditions (the previous one when there
    is none). *)
Definition maxProbeTime (prev : Time) (conds : list health.Condition) : Time :=
  match conds with
  | [] => prev
  | c :: cs => foldl (λ t c', Z.max t (health.LastProbeTime c'))
                     (health.LastProbeTime c) cs
  end.

(** Modelled from the spec: the reduction step of [HealthReducer] on a
    status, section 4.7.  The transition time is kept when the aggregate
    value is the one the previous [Healthy] condition had, and is the
    timestamp of the event otherwise; the sub-conditions pass through. *)
Definition reduceHealth (current : health.Status_) (evt : data.Event) : health.Status_ :=
  let prev := health.Healthy current in
  let status := aggregate (health.StatusConditions current) in
  {| health.StatusManifestID := health.StatusManifestID current;
     health.Healthy :=
       {| health.Type_ := health.Type_ prev;
          health.Status := status;
          health.Frequency := health.Frequency prev;
          health.LastProbeTime :=
            maxProbeTime (health.LastProbeTime prev) (health.StatusConditions current);
          health.LastTransitionTime :=
            if decide (status = health.Status prev)
            then health.LastTransitionTime prev
            else data.EventTimestamp evt |};
     health.StatusConditions := health.StatusConditions current |}.

End reducers.

(* ===================================================================== *)
(** * Package api: the events endpoint                                     *)
(* ===================================================================== *)

Module api.

(** The errors the handler tells apart: the two sentinels of package
    health and any other error, known by its message. *)
Inductive Err :=
| ErrEventNotFound
| ErrStreamNotFound
| ErrorString (msg : string).

#[export] Instance Err_eq_dec : EqDecision Err.
Proof. solve_decision. Defined.

Definition StatusBadRequest : Z := 400.
Definition StatusNotFound : Z := 404.
Definition StatusInternalServerError : Z := 500.

Definition sseBufferSize : nat := 128.

(** ** The core, as the handler sees it *)

(** A receive-only channel of events is the list of the events it delivers
    before it is closed.  While a channel stays open the loop that ranges
    over it has seen a prefix of that list. *)
Definition Subscription := list data.Event.

(** Modelled from the spec: the [Core] type is declared outside the
    modelled sources.  Sections 3 and 4.3: it owns the record store, whose
    records carry the retained history, and publishes to subscribers;
    [published m] are the events delivered to a subscriber of manifest [m]
    from its registration until its channel is closed. *)
Record Core := mkCore {
  storage : health.RecordStorage;
  published : string → Subscription;
}.

Definition recordOf (c : Core) (manifestID : string) : option health.Record_ :=
  (health.Get manifestID (storage c)).1 ≫= λ p, health.deref p (storage c).

Definition history (c : Core) (manifestID : string) : list data.Event :=
  default [] (health.PastEvents <$> recordOf c manifestID).

Definition inRange (from to : option Time) (e : data.Event) : bool :=
  match from with Some f => (f <=? data.EventTimestamp e)%Z | None => true end
  && match to with Some t => (data.EventTimestamp e <? t)%Z | None => true end.

(** Modelled from the spec: [Core.GetPastEvents] is declared outside the
    modelled sources.  Sections 4.3 and 4.5: the events of the record's
    history whose timestamp is at or after [from] and before [to], in
    history order; an empty slice and no error on an unknown manifest. *)
Definition GetPastEvents (c : Core) (manifestID : string) (from to : option Time)
    : list data.Event * option Err :=
  (filter (λ e, inRange from to e = true) (history c manifestID), None).

(** The events that follow the event with the given ID, [None] when no
    event has it. *)
Fixpoint eventsAfter (id : UUID) (events : list data.Event) : option (list data.Event) :=
  match events with
  | [] => None
  | e :: rest => if decide (data.EventID e = id) then Some rest else eventsAfter id rest
  end.

(** The events from the first one whose timestamp is at or after [from]. *)
Fixpoint eventsFrom (from : Time) (events : list data.Event) : list data.Event :=
  match events with
  | [] => []
  | e :: rest => if (from <=? data.EventTimestamp e)%Z then events else eventsFrom from rest
  end.

(** Modelled from the spec: [Core.SubscribeEvents] is declared outside the
    modelled sources.  Sections 4.3, 4.5 and 7: [ErrStreamNotFound] when the
    manifest has no record; with a [lastEvtID], the events strictly after it
    or [ErrEventNotFound] when the history does not hold it; otherwise the
    events from the first one at or after [from]; otherwise the whole
    retained history.  On success the live channel is returned with the
    backlog. *)
Definition SubscribeEvents (c : Core) (manifestID : string)
    (lastEvtID : option UUID) (from : option Time)
    : list data.Event * option Subscription * option Err :=
  match recordOf c manifestID with
  | None => ([], None, Some ErrStreamNotFound)
  | Some rec =>
      let live := Some (published c manifestID) in
      match lastEvtID, from with
      | Some id, _ =>
          match eventsAfter id (health.PastEvents rec) with
          | Some backlog => (backlog, live, None)
          | None => ([], None, Some ErrEventNotFound)
          end
      | None, Some t => (eventsFrom t (health.PastEvents rec), live, None)
      | None, None => (health.PastEvents rec, live, None)
      end
  end.

(** ** Contexts and channels *)

(** A context is observed only by the [select] of [sendEvent].  It is the
    list of the outcomes of the successive selects: [true] when the send
    case ran, [false] when the [ctx.Done()] case ran.  Past the end of the
    list the context is not cancelled and every send goes through.  Once a
    context is cancelled both cases can be ready and Go picks either, so
    every list is a possible run. *)
Definition Ctx := list bool.

Definition select (ctx : Ctx) : bool * Ctx :=
  match ctx with
  | [] => (true, [])
  | b :: ctx' => (b, ctx')
  end.

Definition neverCancelled (ctx : Ctx) : Prop := Forall (λ b, b = true) ctx.

(** Number of sends that go through before the [ctx.Done()] case first
    runs; [None] when it never does. *)
Fixpoint cancelledAfter (ctx : Ctx) : option nat :=
  match ctx with
  | [] => None
  | true :: ctx' => S <$> cancelledAfter ctx'
  | false :: _ => Some 0
  end.

Section handler.

(** [jsse.Event], [toSSEEvent] and [jsse.ServeEvents] are declared outside
    the modelled sources and are parameters. *)
Context {SSEEvent : Type}.
Variable toSSEEvent : data.Event → SSEEvent + Err.

(** A channel of SSE events: its capacity, everything sent on it so far
    in order, and whether it has been closed. *)
Record SSEChan := mkChan {
  capacity : nat;
  sent : list SSEEvent;
  closed : bool;
}.

Definition make (cap : nat) : SSEChan :=
  {| capacity := cap; sent := []; closed := false |}.

Definition send (dest : SSEChan) (e : SSEEvent) : SSEChan :=
  {| capacity := capacity dest; sent := sent dest ++ [e]; closed := closed dest |}.

Definition close (c : SSEChan) : SSEChan :=
  {| capacity := capacity c; sent := sent c; closed := true |}.

(** What [jsse.ServeEvents] can return. *)
Inductive ServeError :=
| HTTPError (StatusCode : Z) (Cause : Err)
| OtherError (e : Err).

Variable ServeEvents : SSEChan → option ServeError.

Definition sendEvent (ctx : Ctx) (dest : SSEChan) (evt : data.Event)
    : bool * Ctx * SSEChan :=
  match toSSEEvent evt with
  | inr _ => (true, ctx, dest)
  | inl sseEvt =>
      match select ctx with
      | (true, ctx') => (true, ctx', send dest sseEvt)
      | (false, ctx') => (false, ctx', dest)
      end
  end.

(** [for _, evt := range pastEvents { sendEvent(ctx, events, evt) }] *)
Fixpoint sendEach (ctx : Ctx) (dest : SSEChan) (evts : list data.Event)
    : Ctx * SSEChan :=
  match evts with
  | [] => (ctx, dest)
  | evt :: rest =>
      let '(_, ctx', dest') := sendEvent ctx dest evt in
      sendEach ctx' dest' rest
  end.

(** [for ... { if !sendEvent(ctx, events, evt) { return } }]: the result
    is [false] when the loop returned from the goroutine. *)
Fixpoint sendUntilDone (ctx : Ctx) (dest : SSEChan) (evts : list data.Event)
    : bool * Ctx * SSEChan :=
  match evts with
  | [] => (true, ctx, dest)
  | evt :: rest =>
      match sendEvent ctx dest evt with
      | (true, ctx', dest') => sendUntilDone ctx' dest' rest
      | (false, ctx', dest') => (false, ctx', dest')
      end
  end.

(** The channel that [makeSSEEventChan] returns, in the state it reaches
    once the sending loops are over. *)
Definition makeSSEEventChan (ctx : Ctx) (pastEvents : list data.Event)
    (subscription : option Subscription) : SSEChan :=
  match subscription with
  | None =>
      let events := make (length pastEvents) in
      let '(_, events) := sendEach ctx events pastEvents in
      close events
  | Some live =>
      let events := make sseBufferSize in
      match sendUntilDone ctx events pastEvents with
      | (false, _, events) => close events
      | (true, ctx', events) =>
          let '(_, _, events) := sendUntilDone ctx' events live in
          close events
      end
  end.

(** The SSE form of the events that convert, in order. *)
Definition convert (evt : data.Event) : option SSEEvent :=
  match toSSEEvent evt with
  | inl sseEvt => Some sseEvt
  | inr _ => None
  end.

Definition converted (evts : list data.Event) : list SSEEvent := omap convert evts.

(** A stream cut after [n] events, whole when there is no cut. *)
Definition cutAfter (n : option nat) (l : list SSEEvent) : list SSEEvent :=
  match n with
  | Some k => take k l
  | None => l
  end.

(** ** The handler *)

(** What the handler gets from the request.  [parseInputUUID] and
    [parseInputTimestamp] are declared outside the modelled sources; each
    parsed parameter is the pair its parser returns, a value that is
    [None] when the parameter is absent and an error, known by its
    message, that is [None] when parsing succeeded.  The error of
    [strconv.ParseBool] is dropped by the handler, [mustFindLast] is the
    value it returns.  The stream ID is the one of the status that the
    [streamStatus] middleware attached to the request. *)
Record Request := mkRequest {
  streamID : string;
  lastEventID : option UUID * option string;
  from : option Time * option string;
  to : option Time * option string;
  mustFindLast : bool;
}.

(** What the handler does, in order: its calls into the core and what it
    writes to the response. *)
Inductive Effect :=
| CallGetPastEvents (manifestID : string) (from to : option Time)
| CallSubscribeEvents (manifestID : string) (lastEvtID : option UUID) (from : option Time)
| Respond (status : Z) (errors : list Err)
| Serve (sseEvents : SSEChan).

(** The errors that sections 6 and 7 map to a 404. *)
Definition isNotFound (e : Err) : bool :=
  match e with
  | ErrEventNotFound | ErrStreamNotFound => true
  | ErrorString _ => false
  end.

(** Modelled from the spec: [respondError(rw, status, errs...)] is declared
    outside the modelled sources.  Sections 6 and 7: a response that
    carries [ErrEventNotFound] or [ErrStreamNotFound] has status 404, any
    other one the status the caller passed. *)
Definition respondError (status : Z) (errs : list Err) : Effect :=
  Respond (if existsb isNotFound errs then StatusNotFound else status) errs.

Definition nonNilErrs (errs : list (option string)) : list Err :=
  ErrorString <$> omap id errs.

(** [if err != nil] after [jsse.ServeEvents]: the error is reported with
    the status it carries, or with 500. *)
Definition afterServe (sseEvents : SSEChan) : list Effect :=
  match ServeEvents sseEvents with
  | None => []
  | Some (HTTPError status cause) => [respondError status [cause]]
  | Some (OtherError e) => [respondError StatusInternalServerError [e]]
  end.

(** From [if err != nil] after the core calls to the end of the
    handler. *)
Definition serve (ctx : Ctx) (pastEvents : list data.Event)
    (subscription : option Subscription) (err : option Err) : list Effect :=
  match err with
  | Some e => [respondError StatusInternalServerError [e]]
  | None =>
      let sseEvents := makeSSEEventChan ctx pastEvents subscription in
      Serve sseEvents :: afterServe sseEvents
  end.

Definition subscribeEvents (core : Core) (ctx : Ctx) (r : Request) : list Effect :=
  let '(lastEventID, err) := lastEventID r in
  let '(from, err1) := from r in
  let '(to, err2) := to r in
  let errs := nonNilErrs [err; err1; err2] in
  if bool_decide (0 < length errs) then [respondError StatusBadRequest errs]
  else
    match to with
    | Some _ =>
        match from with
        | None =>
            [respondError StatusBadRequest
               [ErrorString "query 'from' is required when using 'to'"]]
        | Some _ =>
            let '(pastEvents, err) := GetPastEvents core (streamID r) from to in
            CallGetPastEvents (streamID r) from to :: serve ctx pastEvents None err
        end
    | None =>
        let '(pastEvents, subscription, err) :=
          SubscribeEvents core (streamID r) lastEventID from in
        if bool_decide (err = Some ErrEventNotFound) && negb (mustFindLast r) then
          let '(pastEvents, subscription, err) :=
            SubscribeEvents core (streamID r) None None in
          CallSubscribeEvents (streamID r) lastEventID from ::
          CallSubscribeEvents (streamID r) None None ::
          serve ctx pastEvents subscription err
        else
          CallSubscribeEvents (streamID r) lastEventID from ::
          serve ctx pastEvents subscription err
    end.

Definition isSubscribe (e : Effect) : bool :=
  match e with CallSubscribeEvents _ _ _ => true | _ => false end.

Definition isServe (e : Effect) : bool :=
  match e with Serve _ => true | _ => false end.

Definition respondsWith (status : Z) (e : Effect) : bool :=
  match e with Respond st _ => bool_decide (st = status) | _ => false end.

Definition isCoreCall (e : Effect) : bool :=
  match e with
  | CallGetPastEvents _ _ _ | CallSubscribeEvents _ _ _ => true
  | _ => false
  end.

End handler.

Arguments SSEChan : clear implicits.
Arguments ServeError : clear implicits.
Arguments Effect : clear implicits.

End api.

(* ===================================================================== *)
(** * Sample data                                                          *)
(* ===================================================================== *)

Module samples.

Definition transcodeAt (id : UUID) (ts : Time) : data.Event :=
  data.OfBase (data.mkBase id "transcode" ts "m1").

Definition e1 : data.Event := transcodeAt 1%N 1000%Z.
Definition e2 : data.Event := transcodeAt 2%N 2000%Z.
Definition e3 : data.Event := transcodeAt 3%N 3000%Z.

(** The record of stream [m1] after the events [e1] and [e2]. *)
Definition recordM1 : health.Record_ :=
  let fresh := health.NewRecord "m1" ["Transcoding"] in
  {| health.ManifestID := health.ManifestID fresh;
     health.Conditions := health.Conditions fresh;
     health.PastEvents := [e1; e2];
     health.ReducersState := health.ReducersState fresh;
     health.LastStatus := health.LastStatus fresh |}.

(** A core that holds this record and will publish [e3] next. *)
Definition core : api.Core :=
  {| api.storage := {| health.heap := [recordM1]; health.records := {["m1" := 0]} |};
     api.published := λ _, [e3] |}.

(** An SSE conversion that never fails and a server that ends without
    error. *)
Definition plainSSE (evt : data.Event) : data.Event + api.Err := inl evt.
Definition served (events : api.SSEChan data.Event) : option (api.ServeError) := None.

Definition request (lastEventID : option UUID * option string)
    (from to : option Time * option string) (mustFindLast : bool) : api.Request :=
  {| api.streamID := "m1"; api.lastEventID := lastEventID;
     api.from := from; api.to := to; api.mustFindLast := mustFindLast |}.

End samples.

(* ===================================================================== *)
(** * Runs of concurrent callers: measures and invariants                  *)
(* ===================================================================== *)

Module concurrency.
Import health.

(** How many times the schedule lets caller [i] move. *)
Definition turns (i : nat) (schedule : list nat) : nat :=
  length (filter (λ j, j = i) schedule).

(** How far a caller is in [GetOrCreate]. *)
Definition stage (c : Caller) : nat :=
  match c with
  | Calling _ _ => 0
  | Created _ _ => 1
  | Returned _ _ => 2
  end.

Definition manifestOf (c : Caller) : string :=
  match c with
  | Calling m _ | Created m _ | Returned m _ => m
  end.

(** Every binding of the map points to a record of the heap that was made
    for the manifest it is bound to. *)
Definition consistent (s : RecordStorage) : Prop :=
  ∀ m p, records s !! m = Some p →
         ∃ rec, heap s !! p = Some rec ∧ ManifestID rec = m.

(** The record a caller has allocated and not yet offered to the map. *)
Definition pending (c : Caller) (s : RecordStorage) : Prop :=
  match c with
  | Created m new => ∃ rec, heap s !! new = Some rec ∧ ManifestID rec = m
  | _ => True
  end.

Definition sound (cfg : Config) : Prop :=
  consistent cfg.2 ∧ ∀ i c, cfg.1 !! i = Some c → pending c cfg.2.

(** Location [p] holds the fresh record of one of the calls for [m]. *)
Definition freshFor (calls : list (string * list ConditionType)) (m : string)
    (p : loc) (s : RecordStorage) : Prop :=
  ∃ C, (m, C) ∈ calls ∧ heap s !! p = Some (NewRecord m C).

(** For a manifest that the calls are the first to bind: whatever is bound
    to it, or about to be offered for it, is the fresh record of one of the
    calls. *)
Definition tracked (calls : list (string * list ConditionType)) (m : string)
    (cfg : Config) : Prop :=
  (∀ p, records cfg.2 !! m = Some p → freshFor calls m p cfg.2)
  ∧ ∀ i c, cfg.1 !! i = Some c →
      match c with
      | Calling m' C => m' = m → (m, C) ∈ calls
      | Created m' new => m' = m → freshFor calls m new cfg.2
      | Returned _ _ => True
      end.

End concurrency.

(* ===================================================================== *)
(** * Package api: the middlewares                                         *)
(* ===================================================================== *)

Module middleware.

(** An [http.Header]: the values of each header, by canonical key.  All
    keys the middlewares use are in canonical form already. *)
Abbreviation Header := (gmap string (list string)).

(** [Header.Set]: the key gets this single value. *)
Definition HeaderSet (h : Header) (key value : string) : Header :=
  <[key := [value]]> h.

(** [Header.Get]: the first value of the key, the empty string when there
    is none. *)
Definition HeaderGet (h : Header) (key : string) : string :=
  match h !! key with
  | Some (v :: _) => v
  | _ => ""
  end.

(** [h[key]]: the values of the key, the nil slice when it is missing. *)
Definition HeaderIndex (h : Header) (key : string) : list string :=
  default [] (h !! key).

(** What the middlewares read from the incoming request: the method, the
    headers and the ID of the stream status attached to it. *)
Record Request := mkRequest {
  Method : string;
  ReqHeader : Header;
  StreamID : string;
}.

(** An [http.ResponseWriter]: the header map, the status once it has been
    written, and the body written so far. *)
Record ResponseWriter := mkWriter {
  WHeader : Header;
  WStatus : option Z;
  WBody : string;
}.

Definition setHeader (rw : ResponseWriter) (key value : string) : ResponseWriter :=
  {| WHeader := HeaderSet (WHeader rw) key value;
     WStatus := WStatus rw; WBody := WBody rw |}.

(** [rw.WriteHeader]: the first status written is the one that counts. *)
Definition WriteHeader (rw : ResponseWriter) (status : Z) : ResponseWriter :=
  {| WHeader := WHeader rw;
     WStatus := match WStatus rw with Some st => Some st | None => Some status end;
     WBody := WBody rw |}.

(** [rw.Write]: a write before any status writes status 200 first. *)
Definition Write (rw : ResponseWriter) (data : string) : ResponseWriter :=
  {| WHeader := WHeader rw;
     WStatus := match WStatus rw with Some st => Some st | None => Some 200%Z end;
     WBody := WBody rw +:+ data |}.

Definition Handler : Type := ResponseWriter → Request → ResponseWriter.

(** [apiHandler.cors], for the server name of the handler's options. *)
Definition cors (ServerName : string) (next : Handler) : Handler :=
  λ rw r,
    let rw := if decide (ServerName ≠ "") then setHeader rw "Server" ServerName else rw in
    let rw := setHeader rw "Access-Control-Allow-Origin" "*" in
    let rw := setHeader rw "Access-Control-Allow-Headers" "*" in
    let origin := HeaderGet (ReqHeader r) "Origin" in
    let rw :=
      if decide (origin ≠ "")
      then setHeader (setHeader rw "Access-Control-Allow-Origin" origin)
                     "Access-Control-Allow-Credentials" "true"
      else rw in
    next rw r.

(** The headers that [cors] may write. *)
Definition corsHeaders : list string :=
  ["Server"; "Access-Control-Allow-Origin"; "Access-Control-Allow-Headers";
   "Access-Control-Allow-Credentials"].

(** ** Authorization *)

Definition authorizationHeaders : list string := ["Authorization"; "Cookie"].

Definition StatusOK : Z := 200.
Definition StatusNoContent : Z := 204.

(** The request sent to the authorization service. *)
Record AuthRequest := mkAuthRequest {
  AMethod : string;
  AURL : string;
  AHeader : Header;
}.

(** Its answer; the body is what [io.Copy] gets out of it. *)
Record AuthResponse := mkAuthResponse {
  StatusCode : Z;
  ResHeader : Header;
  Body : string;
}.

(** An error as it is, or wrapped by [fmt.Errorf("...: %w", err)]. *)
Inductive AuthErr :=
| Plain (msg : string)
| Wrapped (prefix : string) (cause : string).

Section authorization.

(** Declared outside the modelled sources and taken as parameters:
    [respondError]; whether [http.NewRequestWithContext] accepts a method
    and a URL; the string form of the parsed URL; and
    [http.DefaultClient.Do], which answers or fails. *)
Variable respondError : ResponseWriter → Z → AuthErr → ResponseWriter.
Variable NewRequestError : string → string → option string.
Variable URLString : string → string.
Variable Do : AuthRequest → AuthResponse + string.

(** The request that [authorization] builds before it sends it. *)
Definition authRequest (authUrl : string) (r : Request) : AuthRequest :=
  let header : Header := ∅ in
  let header := HeaderSet header "X-Original-Uri" (URLString authUrl) in
  let header := HeaderSet header "X-Livepeer-Stream-Id" (StreamID r) in
  let header :=
    foldl (λ (h : Header) name, <[name := HeaderIndex (ReqHeader r) name]> h)
          header authorizationHeaders in
  {| AMethod := Method r; AURL := authUrl; AHeader := header |}.

(** [authorization(authUrl)].  The three-second timeout of the request is
    part of what [Do] answers. *)
Definition authorization (authUrl : string) (next : Handler) : Handler :=
  λ rw r,
    match NewRequestError (Method r) authUrl with
    | Some err => respondError rw api.StatusInternalServerError (Plain err)
    | None =>
        match Do (authRequest authUrl r) with
        | inr err =>
            respondError rw api.StatusInternalServerError
              (Wrapped "error authorizing request" err)
        | inl res =>
            if bool_decide (StatusCode res ≠ StatusOK)
               && bool_decide (StatusCode res ≠ StatusNoContent)
            then
              let contentType := HeaderGet (ResHeader res) "Content-Type" in
              let rw := if decide (contentType ≠ "")
                        then setHeader rw "Content-Type" contentType else rw in
              let rw := WriteHeader rw (StatusCode res) in
              Write rw (Body res)
            else next rw r
        end
    end.

End authorization.

End middleware.

(* ===================================================================== *)
(** * Package api: the routes                                              *)
(* ===================================================================== *)

Module routes.

Record APIHandlerOptions := mkOptions {
  ServerName : string;
  APIRoot : string;
  AuthURL : string;
  RegionalHostFormat : string;
  OwnRegion : string;
  Prometheus : bool;
}.

Definition streamIDParam : string := "streamId".
Definition assetIDParam : string := "assetId".

(** The middlewares, by the call that makes them. *)
Inductive Middleware :=
| streamStatus
| regionProxy (hostFormat ownRegion : string)
| authorization (authUrl : string)
| cors.

(** The handlers that the routes end in. *)
Inductive Target :=
| healthcheck
| promhttpHandler
| getStreamHealth
| subscribeEvents
| getTotalViews.

(** A route of the router: method and path, and the handler with the name,
    metrics flag and middlewares that [prepareHandlerFunc] wraps it with;
    a handler registered as it is has no name and no middlewares. *)
Record Route := mkRoute {
  method : string;
  path : string;
  name : string;
  metered : bool;
  middlewares : list Middleware;
  target : Target;
}.

Section router.

(** [path.Join] is taken as a parameter. *)
Variable Join : list string → string.

Definition addStreamHealthHandlers (opts : APIHandlerOptions) : list Route :=
  let middlewares :=
    [streamStatus; regionProxy (RegionalHostFormat opts) (OwnRegion opts)] in
  let middlewares :=
    if decide (AuthURL opts ≠ "")
    then middlewares ++ [authorization (AuthURL opts)] else middlewares in
  let addApiHandler (apiPath name : string) (handler : Target) : Route :=
    {| method := "GET";
       path := Join [APIRoot opts; "/stream/:" +:+ streamIDParam; apiPath];
       name := name; metered := Prometheus opts;
       middlewares := middlewares; target := handler |} in
  [addApiHandler "/health" "get_stream_health" getStreamHealth;
   addApiHandler "/events" "stream_health_events" subscribeEvents].

Definition addViewershipHandlers (opts : APIHandlerOptions) : list Route :=
  let middlewares := [] in
  let middlewares :=
    if decide (AuthURL opts ≠ "")
    then middlewares ++ [authorization (AuthURL opts)] else middlewares in
  let addApiHandler (apiPath name : string) (handler : Target) : Route :=
    {| method := "GET";
       path := Join [APIRoot opts; "/views/:" +:+ assetIDParam; apiPath];
       name := name; metered := Prometheus opts;
       middlewares := middlewares; target := handler |} in
  [addApiHandler "/total" "get_total_views" getTotalViews].

(** [NewHandler]: the middlewares around the whole router, and its routes
    in the order they are added. *)
Definition NewHandler (opts : APIHandlerOptions) : list Middleware * list Route :=
  let router :=
    [{| method := "GET"; path := "/_healthz"; name := ""; metered := false;
        middlewares := []; target := healthcheck |}] in
  let router :=
    if Prometheus opts
    then router ++ [{| method := "GET"; path := "/metrics"; name := "";
                       metered := false; middlewares := [];
                       target := promhttpHandler |}]
    else router in
  let router := router ++ addStreamHealthHandlers opts in
  let router := router ++ addViewershipHandlers opts in
  ([cors], router).

End router.

(** Whether a route serves a stream, and whether it is one of the API. *)
Definition servesStream (rt : Route) : bool :=
  match target rt with
  | getStreamHealth | subscribeEvents => true
  | _ => false
  end.

Definition servesAPI (rt : Route) : bool :=
  match target rt with
  | getStreamHealth | subscribeEvents | getTotalViews => true
  | _ => false
  end.

End routes.

(* ===================================================================== *)
(** * Sample requests for the middlewares                                  *)
(* ===================================================================== *)

Module middleware_samples.
Import middleware.

(** An authorization service that answers with the given status. *)
Definition answers (status : Z) (req : AuthRequest) : AuthResponse + string :=
  inl {| StatusCode := status; ResHeader := {["Content-Type" := ["text/plain"]]};
         Body := "no" |}.

Definition failWith (rw : ResponseWriter) (status : Z) (err : AuthErr) : ResponseWriter :=
  Write (WriteHeader rw status) "error".

Definition blank : ResponseWriter := {| WHeader := ∅; WStatus := None; WBody := "" |}.
Definition tagged : ResponseWriter :=
  {| WHeader := {["X-Request-Id" := ["7"]]}; WStatus := None; WBody := "" |}.
Definition getM1 : Request := {| Method := "GET"; ReqHeader := ∅; StreamID := "m1" |}.

End middleware_samples.

(* ===================================================================== *)
(** * Package usage: the usage summary query                               *)
(* ===================================================================== *)

Module usage.

Record QueryFilter := mkFilter {
  CreatorID : string;
  UserID : string;
}.

Record QuerySpec := mkSpec {
  From : option Time;
  To : option Time;
  Filter : QueryFilter;
}.

(** The values bound to the placeholders of a query. *)
Inductive Arg :=
| ArgString (s : string)
| ArgInt (n : Z).

(** A [squirrel.SelectBuilder] is what has been asked of it so far: its
    columns, table, row limit, conditions with their arguments, and
    grouping columns, each in the order of the calls. *)
Record SelectBuilder := mkBuilder {
  Columns : list string;
  FromTable : option string;
  LimitRows : option N;
  Wheres : list (string * list Arg);
  GroupBys : list string;
}.

Definition Select (columns : list string) : SelectBuilder :=
  {| Columns := columns; FromTable := None; LimitRows := None;
     Wheres := []; GroupBys := [] |}.

Definition From_ (q : SelectBuilder) (table : string) : SelectBuilder :=
  {| Columns := Columns q; FromTable := Some table; LimitRows := LimitRows q;
     Wheres := Wheres q; GroupBys := GroupBys q |}.

Definition Limit (q : SelectBuilder) (n : N) : SelectBuilder :=
  {| Columns := Columns q; FromTable := FromTable q; LimitRows := Some n;
     Wheres := Wheres q; GroupBys := GroupBys q |}.

Definition Where (q : SelectBuilder) (pred : string) (args : list Arg) : SelectBuilder :=
  {| Columns := Columns q; FromTable := FromTable q; LimitRows := LimitRows q;
     Wheres := Wheres q ++ [(pred, args)]; GroupBys := GroupBys q |}.

Definition Column (q : SelectBuilder) (column : string) : SelectBuilder :=
  {| Columns := Columns q ++ [column]; FromTable := FromTable q;
     LimitRows := LimitRows q; Wheres := Wheres q; GroupBys := GroupBys q |}.

Definition GroupBy (q : SelectBuilder) (column : string) : SelectBuilder :=
  {| Columns := Columns q; FromTable := FromTable q; LimitRows := LimitRows q;
     Wheres := Wheres q; GroupBys := GroupBys q ++ [column] |}.

(** The errors of the package: made by [fmt.Errorf] from a message, from a
    message and a wrapped error, or from the row count; or coming from a
    library. *)
Inductive Err :=
| Errorf (msg : string)
| Wrapf (msg : string) (cause : Err)
| TooManyRows (n : nat)
| External (msg : string).

Definition withUserIdFilter (query : SelectBuilder) (userID : string) : SelectBuilder :=
  if decide (userID = "")
  then GroupBy (Column query "user_id") "user_id"
  else GroupBy (Where (Column query "user_id") "user_id = ?" [ArgString userID]) "user_id".

(** [buildUsageSummaryQuery] up to its call of [ToSql]. *)
Definition usageSummaryBuilder (table userID creatorID : string) (spec : QuerySpec)
    : SelectBuilder :=
  let query :=
    Limit (From_ (Select
      ["cast(sum(transcode_total_usage_minutes) as FLOAT64) as transcode_total_usage_minutes";
       "cast(sum(delivery_usage_gbs) as FLOAT64) as delivery_usage_gbs";
       "cast(avg(storage_usage_mins) as FLOAT64) as storage_usage_mins"]) table) 2 in
  let query :=
    if decide (CreatorID (Filter spec) ≠ "")
    then Where (Where query "creator_id_type = ?" [ArgString "unverified"])
               "creator_id = ?" [ArgString creatorID]
    else query in
  let query :=
    match From spec with
    | Some from => Where query "time >= timestamp_millis(?)" [ArgInt from]
    | None => query
    end in
  let query :=
    match To spec with
    | Some to => Where query "time < timestamp_millis(?)" [ArgInt to]
    | None => query
    end in
  withUserIdFilter query userID.

(** A [bigquery.Query] as [doBigQuery] sets it up. *)
Record Query := mkQuery {
  SQL : string;
  Parameters : list Arg;
  MaxBytesBilled : Z;
}.

Record BigQueryOptions := mkOptions {
  HourlyUsageTable : string;
  MaxBytesBilledPerBigQuery : Z;
}.

(** [bigquery.QueryParameter{Value: arg}] for each argument. *)
Definition toBigQueryParameters (args : list Arg) : list Arg := (λ arg, arg) <$> args.

Section queries.

(** The rows are of any type. *)
Context {RowT : Type}.

(** A [bigquery.RowIterator] is the list of what its successive [Next]
    calls return, rows or errors, before it returns [iterator.Done]. *)
Definition RowIterator := list (RowT + Err).

(** Declared outside the modelled sources and taken as parameters:
    [SelectBuilder.ToSql], and running a query, [Query.Read]. *)
Variable ToSql : SelectBuilder → (string * list Arg) + Err.
Variable Read : Query → RowIterator + Err.

Definition buildUsageSummaryQuery (table userID creatorID : string) (spec : QuerySpec)
    : (string * list Arg) + Err :=
  if decide (userID = "") then inr (Errorf "userID cannot be empty")
  else
    match ToSql (usageSummaryBuilder table userID creatorID spec) with
    | inr err => inr err
    | inl (sql, args) => inl (sql, args)
    end.

Fixpoint readRows (it : RowIterator) (values : list RowT) : list RowT + Err :=
  match it with
  | [] => inl values
  | inr err :: _ => inr (Wrapf "error reading query result" err)
  | inl row :: rest => readRows rest (values ++ [row])
  end.

Definition toTypedValues (it : RowIterator) : list RowT + Err := readRows it [].

Definition doBigQuery (opts : BigQueryOptions) (sql : string) (args : list Arg)
    : list RowT + Err :=
  let query := {| SQL := sql; Parameters := toBigQueryParameters args;
                  MaxBytesBilled := MaxBytesBilledPerBigQuery opts |} in
  match Read query with
  | inr err => inr (Wrapf "error running query" err)
  | inl it => toTypedValues it
  end.

(** The result is a pointer to a row, [nil], or an error. *)
Definition QueryUsageSummary (opts : BigQueryOptions) (userID creatorID : string)
    (spec : QuerySpec) : option RowT + Err :=
  match buildUsageSummaryQuery (HourlyUsageTable opts) userID creatorID spec with
  | inr err => inr (Wrapf "error building usage summary query" err)
  | inl (sql, args) =>
      match doBigQuery opts sql args with
      | inr err => inr (Wrapf "bigquery error" err)
      | inl bqRows =>
          if bool_decide (1 < length bqRows) then inr (TooManyRows (length bqRows))
          else
            match bqRows with
            | [] => inl None
            | row :: _ => inl (Some row)
            end
      end
  end.

End queries.

End usage.

(* ===================================================================== *)
(** * Package views: validation of a query                                 *)
(* ===================================================================== *)

Module views.

(** What [Validate] reads of a [livepeer.Asset] or [livepeer.Stream]. *)
Record Owned := mkOwned {
  PlaybackID : string;
  OwnerID : string;
}.

(** An error of the Livepeer client: the sentinel [livepeer.ErrNotExists],
    an error that wraps another one, or any other error. *)
Inductive LpErr :=
| ErrNotExists
| LpWrap (msg : string) (cause : LpErr)
| LpOther (msg : string).

(** [errors.Is(err, livepeer.ErrNotExists)] *)
Fixpoint isNotExists (err : LpErr) : bool :=
  match err with
  | ErrNotExists => true
  | LpWrap _ cause => isNotExists cause
  | LpOther _ => false
  end.

(** The Livepeer API client, declared outside the modelled sources:
    [GetAsset(id, false)] and [GetStream(id, false)] return an object or
    [nil], and an error or [nil]. *)
Record Livepeer := mkLivepeer {
  GetAsset : string → option Owned * option LpErr;
  GetStream : string → option Owned * option LpErr;
}.

(** The errors that [Validate] returns. *)
Inductive Err :=
| ErrAssetNotFound
| ErrAssetCredentials
| ErrStreamCredentials
| ErrGetting (cause : LpErr).

(** The calls that [Validate] makes to the client, in order. *)
Inductive Call :=
| CallGetAsset (id : string)
| CallGetStream (id : string).

(** [Client.Validate]: its calls to the Livepeer client and its result.
    [userID] is [spec.Filter.UserID]; the playback ID that is written into
    the by-value [spec] is not seen by the caller. *)
Definition Validate (lp : Livepeer) (userID assetID streamID : string)
    : list Call * option Err :=
  let finish (calls : list Call) (err : option LpErr) : list Call * option Err :=
    match err with
    | Some e => if isNotExists e then (calls, Some ErrAssetNotFound)
                else (calls, Some (ErrGetting e))
    | None => (calls, None)
    end in
  if decide (assetID ≠ "") then
    let '(asset, err) := GetAsset lp assetID in
    match asset with
    | Some a =>
        if decide (userID ≠ OwnerID a)
        then ([CallGetAsset assetID], Some ErrAssetCredentials)
        else finish [CallGetAsset assetID] err
    | None => finish [CallGetAsset assetID] err
    end
  else if decide (streamID ≠ "") then
    let '(stream, err) := GetStream lp streamID in
    match stream with
    | Some st =>
        if decide (userID ≠ OwnerID st)
        then ([CallGetStream streamID], Some ErrStreamCredentials)
        else finish [CallGetStream streamID] err
    | None => finish [CallGetStream streamID] err
    end
  else finish [] None.

End views.

(* ===================================================================== *)
(** * A sample Livepeer client                                             *)
(* ===================================================================== *)

Module views_samples.
Import views.

(** A client that knows the asset [a1] of user [u1] and nothing else. *)
Definition lp : Livepeer :=
  {| GetAsset := λ id,
       if decide (id = "a1")
       then (Some {| PlaybackID := "p1"; OwnerID := "u1" |}, None)
       else (None, Some (LpWrap "get asset" ErrNotExists));
     GetStream := λ id, (None, Some (LpWrap "get stream" ErrNotExists)) |}.

End views_samples.

(* ===================================================================== *)
(** * Streams of convertible events                                        *)
(* ===================================================================== *)

Module stream.

(** Whether an event has an SSE form. *)
Definition converts {SSEEvent : Type} (toSSEEvent : data.Event → SSEEvent + api.Err)
    (evt : data.Event) : bool :=
  match toSSEEvent evt with
  | inl _ => true
  | inr _ => false
  end.

End stream.

(* ===================================================================== *)
(** * The record store                                                     *)
(* ===================================================================== *)

Section record_store.
Import health.

Implicit Types (s : RecordStorage) (m : string) (p : loc)
               (C : list ConditionType) (c : Caller).

Lemma Get_lookup m s : Get m s = (records s !! m, s).
Proof. unfold Get, Load. by destruct (records s !! m). Qed.

Lemma GetOrCreate_present m C s p :
  records s !! m = Some p → GetOrCreate m C s = (p, s).
Proof. intros Hm. unfold GetOrCreate. by rewrite Get_lookup, Hm. Qed.

Lemma GetOrCreate_absent m C s :
  records s !! m = None →
  GetOrCreate m C s =
    (length (heap s),
     {| heap := heap s ++ [NewRecord m C];
        records := <[m := length (heap s)]> (records s) |}).
Proof.
  intros Hm. unfold GetOrCreate, allocRecord, LoadOrStore.
  rewrite Get_lookup, Hm. cbn [heap records]. by rewrite Hm.
Qed.

(** Whatever [GetOrCreate] returns is what the map holds afterwards. *)
Lemma GetOrCreate_stored m C s :
  records (GetOrCreate m C s).2 !! m = Some (GetOrCreate m C s).1.
Proof.
  destruct (records s !! m) as [p|] eqn:Hm.
  - by rewrite (GetOrCreate_present _ _ _ _ Hm).
  - rewrite (GetOrCreate_absent _ _ _ Hm). cbn [fst snd records]. apply lookup_insert_eq.
Qed.

(** The sequential function is the two atomic steps of a caller run back
    to back. *)
Lemma GetOrCreate_two_steps m C s :
  let '(c1, s1) := stepCaller (Calling m C) s in
  stepCaller c1 s1 = (Returned m (GetOrCreate m C s).1, (GetOrCreate m C s).2).
Proof.
  destruct (records s !! m) as [p|] eqn:Hm.
  - rewrite (GetOrCreate_present _ _ _ _ Hm). cbn [stepCaller fst snd].
    by rewrite Get_lookup, Hm.
  - rewrite (GetOrCreate_absent _ _ _ Hm). cbn [stepCaller fst snd].
    rewrite Get_lookup, Hm. unfold allocRecord. cbn [stepCaller].
    unfold LoadOrStore. cbn [heap records]. by rewrite Hm.
Qed.

Lemma reachable_empty : reachable emptyStorage.
Proof. intros p rec. cbn [emptyStorage heap]. by destruct p. Qed.

Lemma reachable_GetOrCreate m C s :
  reachable s → reachable (GetOrCreate m C s).2.
Proof.
  intros Hs. destruct (records s !! m) as [q|] eqn:Hm.
  - by rewrite (GetOrCreate_present _ _ _ _ Hm).
  - rewrite (GetOrCreate_absent _ _ _ Hm). cbn [snd].
    intros p rec. cbn [heap records]. intros Hp.
    apply lookup_app_Some in Hp as [Hp|[Hlen Hp]].
    + pose proof (Hs p rec Hp) as Hbound.
      rewrite lookup_insert_ne; [done|].
      intros Heq. rewrite <- Heq in Hbound. congruence.
    + apply list_lookup_singleton_Some in Hp as [Hp <-].
      cbn [NewRecord ManifestID].
      replace p with (length (heap s)) by lia. apply lookup_insert_eq.
Qed.

Lemma reachable_unique s p q (r1 r2 : Record_) :
  reachable s →
  heap s !! p = Some r1 → heap s !! q = Some r2 →
  ManifestID r1 = ManifestID r2 → p = q.
Proof.
  intros Hs Hp Hq Hsame. apply Hs in Hp, Hq. rewrite Hsame in Hp. congruence.
Qed.

Lemma callAll_present m Cs s p :
  records s !! m = Some p → callAll m Cs s = (replicate (length Cs) p, s).
Proof.
  intros Hm. induction Cs as [|C Cs IH]; [done|].
  simpl. by rewrite (GetOrCreate_present _ _ _ _ Hm), IH.
Qed.

(** An atomic step never changes the location a manifest is bound to. *)
Lemma stepCaller_records_stable c s m p :
  records s !! m = Some p → records (stepCaller c s).2 !! m = Some p.
Proof.
  intros Hm. destruct c as [m' C|m' new|m' r]; simpl; [| |done].
  - rewrite Get_lookup. by destruct (records s !! m').
  - unfold LoadOrStore. destruct (records s !! m') as [q|] eqn:Hm'; simpl; [done|].
    rewrite lookup_insert_ne; [done|]. intros ->. congruence.
Qed.

(** A caller that has just returned returned what the map holds. *)
Lemma stepCaller_returned c s m r :
  (∀ r', c ≠ Returned m r') →
  (stepCaller c s).1 = Returned m r →
  records (stepCaller c s).2 !! m = Some r.
Proof.
  intros Hc. destruct c as [m' C|m' new|m' r']; simpl.
  - rewrite Get_lookup. destruct (records s !! m') as [q|] eqn:Hm'; simpl.
    + by intros [= -> ->].
    + done.
  - unfold LoadOrStore. destruct (records s !! m') as [q|] eqn:Hm'; simpl.
    + by intros [= -> ->].
    + intros [= -> ->]. apply lookup_insert_eq.
  - intros [= -> ->]. by destruct (Hc r).
Qed.

Lemma agreed_spawn calls s : agreed (spawn calls, s).
Proof.
  intros i m r. unfold spawn. simpl. rewrite list_lookup_fmap.
  by destruct (calls !! i).
Qed.

Lemma agreed_stepAt i cfg : agreed cfg → agreed (stepAt i cfg).
Proof.
  intros Hcfg. unfold stepAt. destruct cfg as [cs s]. simpl.
  destruct (cs !! i) as [c|] eqn:Hi; [|done].
  destruct (stepCaller c s) as [c' s'] eqn:Hstep.
  intros j m r. simpl. intros Hj.
  destruct (decide (i = j)) as [<-|Hne].
  - rewrite list_lookup_insert_eq in Hj by (by eapply lookup_lt_Some).
    injection Hj as ->.
    destruct c as [m' C|m' new|m' r'].
    * pose proof (stepCaller_returned (Calling m' C) s m r) as H.
      rewrite Hstep in H. by apply H.
    * pose proof (stepCaller_returned (Created m' new) s m r) as H.
      rewrite Hstep in H. by apply H.
    * simpl in Hstep. injection Hstep as -> -> <-. by apply (Hcfg i).
  - rewrite list_lookup_insert_ne in Hj by done.
    pose proof (stepCaller_records_stable c s m r (Hcfg j m r Hj)) as H.
    by rewrite Hstep in H.
Qed.

Lemma agreed_run schedule cfg : agreed cfg → agreed (run schedule cfg).
Proof.
  revert cfg. unfold run.
  induction schedule as [|i sch IH]; intros cfg Hcfg; [done|].
  simpl. apply IH. by apply agreed_stepAt.
Qed.

Lemma stepAt_records_stable i cfg m p :
  records cfg.2 !! m = Some p → records (stepAt i cfg).2 !! m = Some p.
Proof.
  intros Hm. unfold stepAt. destruct cfg as [cs s]. simpl in *.
  destruct (cs !! i) as [c|]; [|done].
  pose proof (stepCaller_records_stable c s m p Hm) as H.
  by destruct (stepCaller c s).
Qed.

Lemma run_records_stable schedule cfg m p :
  records cfg.2 !! m = Some p → records (run schedule cfg).2 !! m = Some p.
Proof.
  revert cfg. unfold run.
  induction schedule as [|i sch IH]; intros cfg Hm; [done|].
  simpl. apply IH. by apply stepAt_records_stable.
Qed.

End record_store.

Section record_store_claims.
Import health.

(** C1.  Repeated calls [GetOrCreate(m, _)] all return the record of the
    first call and leave it bound to [m], so that [Get(m)] returns it too;
    in a store without unreachable records they leave at most one record
    per manifest on the heap.  The same agreement holds for callers that
    run concurrently, interleaved at the two atomic map operations in any
    order: all callers that have returned for [m] hold the same record,
    [Get(m)] returns it, and a record bound to [m] is never replaced by
    another one. *)
Theorem GetOrCreate_same_record
    (m : string) (C : list ConditionType) (Cs : list (list ConditionType))
    (s : RecordStorage)
    (calls : list (string * list ConditionType)) (schedule : list nat) :
  let first := GetOrCreate m C s in
  let final := run schedule (spawn calls, s) in
  callAll m (C :: Cs) s = (replicate (S (length Cs)) first.1, first.2)
  ∧ Get m first.2 = (Some first.1, first.2)
  ∧ (reachable s →
     ∀ p q r1 r2,
       heap first.2 !! p = Some r1 → heap first.2 !! q = Some r2 →
       ManifestID r1 = ManifestID r2 → p = q)
  ∧ (∀ i j r1 r2,
        final.1 !! i = Some (Returned m r1) →
        final.1 !! j = Some (Returned m r2) →
        r1 = r2 ∧ Get m final.2 = (Some r1, final.2))
  ∧ (∀ p, records s !! m = Some p → records final.2 !! m = Some p).
Proof.
  intros first final.
  pose proof (GetOrCreate_stored m C s) as Hfirst. fold first in Hfirst.
  split; [|split; [|split; [|split]]].
  - cbn [callAll]. fold first. destruct first as [p s1]. simpl in *.
    by rewrite (callAll_present _ _ _ _ Hfirst).
  - by rewrite Get_lookup, Hfirst.
  - intros Hs p q r1 r2. apply reachable_unique.
    by apply reachable_GetOrCreate.
  - intros i j r1 r2 Hi Hj.
    pose proof (agreed_run schedule _ (agreed_spawn calls s)) as Hagreed.
    fold final in Hagreed.
    pose proof (Hagreed i m r1 Hi) as H1.
    pose proof (Hagreed j m r2 Hj) as H2.
    split; [congruence|]. by rewrite Get_lookup, H1.
  - intros p Hp. by apply run_records_stable.
Qed.

(** Two callers race for the same manifest: both miss in [Get], the second
    one stores first, and the first one gets the stored record back. *)
Lemma GetOrCreate_same_record_witness :
  let final := run [0; 1; 1; 0]
                 (spawn [("m1", ["Transcoding"]); ("m1", ["Active"])], emptyStorage) in
  final.1 !! 0 = Some (Returned "m1" 1)
  ∧ final.1 !! 1 = Some (Returned "m1" 1)
  ∧ (1 = 1 ∧ Get "m1" final.2 = (Some 1, final.2)).
Proof.
  intros final.
  assert (H0 : final.1 !! 0 = Some (Returned "m1" 1)) by (vm_compute; reflexivity).
  assert (H1 : final.1 !! 1 = Some (Returned "m1" 1)) by (vm_compute; reflexivity).
  split; [exact H0|]. split; [exact H1|].
  exact (proj1 (proj2 (proj2 (proj2
           (GetOrCreate_same_record "m1" [] [] emptyStorage
              [("m1", ["Transcoding"]); ("m1", ["Active"])] [0; 1; 1; 0]))))
           0 1 1 1 H0 H1).
Defined.

(** C9.  For a manifest [m] already bound to a record, [Get(m)] and
    [GetOrCreate(m, C')] return that record and leave the store and the
    heap as they are, whatever [C'] is, so the record keeps the conditions
    it was created with; a record created by [GetOrCreate(m, C)] carries
    [C].  [Get] on an unknown manifest returns nothing and inserts
    nothing. *)
Theorem GetOrCreate_frame
    (m : string) (C' : list ConditionType) (s : RecordStorage)
    (p : loc) (rec : Record_) :
  records s !! m = Some p →
  deref p s = Some rec →
  Get m s = (Some p, s)
  ∧ GetOrCreate m C' s = (p, s)
  ∧ deref p (GetOrCreate m C' s).2 = Some rec
  ∧ (∀ m0 C s0, records s0 !! m0 = None →
       Conditions <$> deref (GetOrCreate m0 C s0).1 (GetOrCreate m0 C s0).2 = Some C
       ∧ GetOrCreate m0 C' (GetOrCreate m0 C s0).2 = GetOrCreate m0 C s0)
  ∧ (∀ m', records s !! m' = None → Get m' s = (None, s)).
Proof.
  intros Hm Hp.
  rewrite Get_lookup, Hm, (GetOrCreate_present _ _ _ _ Hm).
  repeat split; try done.
  - rewrite (GetOrCreate_absent _ _ _ H). unfold deref. cbn [fst snd heap].
    by rewrite list_lookup_middle.
  - pose proof (GetOrCreate_stored m0 C s0) as Hst.
    destruct (GetOrCreate m0 C s0) as [q s1]. simpl in *.
    by apply GetOrCreate_present.
  - intros m' Hm'. by rewrite Get_lookup, Hm'.
Qed.

Lemma GetOrCreate_frame_witness :
  let s := (GetOrCreate "m1" ["Transcoding"] emptyStorage).2 in
  GetOrCreate "m1" ["Active"; "Multistreaming"] s = (0, s)
  ∧ Conditions <$> deref 0 s = Some ["Transcoding"].
Proof.
  intros s.
  assert (Hm : records s !! "m1" = Some 0) by (vm_compute; reflexivity).
  assert (Hp : deref 0 s = Some (NewRecord "m1" ["Transcoding"]))
    by (vm_compute; reflexivity).
  pose proof (GetOrCreate_frame "m1" ["Active"; "Multistreaming"] s 0 _ Hm Hp)
    as (_ & Hcall & _).
  split; [exact Hcall|]. by rewrite Hp.
Defined.

End record_store_claims.

(* ===================================================================== *)
(** * The event envelope                                                   *)
(* ===================================================================== *)

Section task_event.
Import data.

(** C6.  The type tag of the event that [NewTaskEvent] returns, for every
    task: it is [EventTypeTranscode], which is not [EventTypeTask]. *)
Theorem NewTaskEvent_type (w : Clock) (info : TaskInfo) :
  Type_ (TaskBase (NewTaskEvent w info)) = EventTypeTranscode
  ∧ Type_ (TaskBase (NewTaskEvent w info)) ≠ EventTypeTask
  ∧ Task (NewTaskEvent w info) = info.
Proof. repeat split. discriminate. Qed.

End task_event.

(* ===================================================================== *)
(** * The default pipeline                                                 *)
(* ===================================================================== *)

Section default_pipeline.
Import reducers.

(** C8.  The default stats windows are one minute, ten minutes and one
    hour; [maxStatsWindow], which [DefaultStarTimeOffset] returns, is the
    last of them, one hour, and no window is longer. *)
Theorem statsWindows_default :
  statsWindows = [60000000000; 600000000000; 3600000000000]%Z
  ∧ statsWindows = [Minute; (10 * Minute)%Z; Hour]
  ∧ maxStatsWindow_opt = Some Hour
  ∧ maxStatsWindow = Hour
  ∧ DefaultStarTimeOffset = maxStatsWindow
  ∧ maxStatsWindow ∈ statsWindows
  ∧ Forall (λ w, (w ≤ maxStatsWindow)%Z) statsWindows.
Proof.
  repeat split.
  - unfold maxStatsWindow. cbn. set_solver.
  - repeat constructor; by vm_compute.
Qed.

(** C7.  With or without a stream-state exchange, the reducers of the
    default pipeline run in this order: the stream-state reducer when an
    exchange is given, the transcode, multistream and media-server
    reducers, then the health reducer, then the stats reducer.  So the
    reducers that run before the health reducer are exactly the primitive
    ones, and the stats reducer runs last. *)
Theorem Default_run_order (golpExchange : string) (shardPrefixes : list string)
    (streamStateExchange : string) :
  let order := runOrder (Default golpExchange shardPrefixes streamStateExchange) in
  let primitives :=
    (if decide (streamStateExchange ≠ "")
     then [StreamStateReducer streamStateExchange] else [])
    ++ [TranscodeReducer golpExchange shardPrefixes;
        MultistreamReducer; MediaServerMetrics] in
  order = primitives ++ [HealthReducer; StatsReducer statsWindows]
  ∧ Forall (λ r, isPrimitive r = true) primitives
  ∧ isPrimitive HealthReducer = false
  ∧ isPrimitive (StatsReducer statsWindows) = false
  ∧ last order = Some (StatsReducer statsWindows).
Proof.
  intros order primitives. subst order primitives. unfold Default.
  destruct (decide (streamStateExchange ≠ "")); cbn;
    repeat split; repeat constructor.
Qed.

End default_pipeline.

(* ===================================================================== *)
(** * Health aggregation                                                   *)
(* ===================================================================== *)

Section health_aggregation.
Import reducers.

Implicit Types (conds : list health.Condition).

Lemma scanStatuses_from conds (seen : bool * bool) :
  foldl (λ (seen : bool * bool) (c : health.Condition),
           match health.Status c with
           | Some true => (true, seen.2)
           | Some false => (seen.1, true)
           | None => seen
           end) seen conds
  = (seen.1 || existsb (isStatus true) conds,
     seen.2 || existsb (isStatus false) conds).
Proof.
  revert seen. induction conds as [|c conds IH]; intros [a b]; simpl.
  - by rewrite !orb_false_r.
  - rewrite IH. cbn [existsb].
    generalize (existsb (isStatus true) conds) (existsb (isStatus false) conds).
    intros x y. unfold isStatus.
    destruct (health.Status c) as [[|]|]; by destruct a, b, x, y.
Qed.

Lemma scanStatuses_existsb conds :
  scanStatuses conds =
    (existsb (isStatus true) conds, existsb (isStatus false) conds).
Proof. unfold scanStatuses. by rewrite scanStatuses_from. Qed.

Lemma existsb_isStatus v conds :
  existsb (isStatus v) conds = true ↔ Exists (λ c, health.Status c = Some v) conds.
Proof.
  rewrite existsb_exists, Exists_exists. unfold isStatus.
  split; intros (c & Hin & Hc); exists c.
  - apply list_elem_of_In in Hin. split; [done|].
    destruct (health.Status c) as [[|]|], v; done.
  - apply list_elem_of_In in Hin. split; [done|]. rewrite Hc. by destruct v.
Qed.

Lemma aggregate_false conds :
  aggregate conds = Some false ↔ Exists (λ c, health.Status c = Some false) conds.
Proof.
  rewrite <- existsb_isStatus. unfold aggregate, unknown.
  rewrite scanStatuses_existsb.
  destruct (existsb (isStatus true) conds), (existsb (isStatus false) conds);
    split; congruence.
Qed.

Lemma aggregate_true conds :
  aggregate conds = Some true ↔
    Exists (λ c, health.Status c = Some true) conds
    ∧ ¬ Exists (λ c, health.Status c = Some false) conds.
Proof.
  rewrite <- !existsb_isStatus. unfold aggregate, unknown.
  rewrite scanStatuses_existsb.
  destruct (existsb (isStatus true) conds), (existsb (isStatus false) conds);
    (split; [intros ?; split|intros [? ?]]; congruence).
Qed.

Lemma aggregate_unknown conds :
  aggregate conds = unknown ↔
    ¬ Exists (λ c, health.Status c = Some true) conds
    ∧ ¬ Exists (λ c, health.Status c = Some false) conds.
Proof.
  rewrite <- !existsb_isStatus. unfold aggregate, unknown.
  rewrite scanStatuses_existsb.
  destruct (existsb (isStatus true) conds), (existsb (isStatus false) conds);
    (split; [intros ?; split|intros [? ?]]; congruence).
Qed.

End health_aggregation.

Section health_claims.
Import reducers.

Implicit Types (conds : list health.Condition).

Lemma no_false_all_known_true conds :
  ¬ Exists (λ c, health.Status c = Some false) conds ↔
  Forall (λ c, health.Status c ≠ unknown → health.Status c = Some true) conds.
Proof.
  rewrite Exists_exists, Forall_forall. unfold unknown. split.
  - intros Hno c Hin Hknown.
    destruct (health.Status c) as [[|]|] eqn:Hc; [done| |done].
    destruct Hno. by exists c.
  - intros Hall (c & Hin & Hc). specialize (Hall c Hin).
    rewrite Hc in Hall. by discriminate Hall.
Qed.

Lemma no_true_no_false_all_unknown conds :
  ¬ Exists (λ c, health.Status c = Some true) conds
  ∧ ¬ Exists (λ c, health.Status c = Some false) conds ↔
  Forall (λ c, health.Status c = unknown) conds.
Proof.
  rewrite !Exists_exists, Forall_forall. unfold unknown. split.
  - intros [Ht Hf] c Hin.
    destruct (health.Status c) as [[|]|] eqn:Hc; [| |done].
    + destruct Ht. by exists c.
    + destruct Hf. by exists c.
  - intros Hall. split; intros (c & Hin & Hc);
      specialize (Hall c Hin); congruence.
Qed.

Lemma some_true_some_known conds :
  Forall (λ c, health.Status c ≠ unknown → health.Status c = Some true) conds →
  Exists (λ c, health.Status c = Some true) conds ↔
  Exists (λ c, health.Status c ≠ unknown) conds.
Proof.
  rewrite !Exists_exists, Forall_forall. unfold unknown. intros Hall.
  split; intros (c & Hin & Hc); exists c; split; try done.
  - congruence.
  - by apply Hall.
Qed.

(** C3.  The status of the aggregated [Healthy] condition is [true] exactly
    when every sub-condition that is not [unknown] is [true] and some
    sub-condition is not [unknown]; it is [unknown] exactly when all
    sub-conditions are [unknown]; it is [false] in every other case.  The
    health reducer gives [Healthy] this status, and the last-transition
    time of [Healthy] differs from the previous one only when the status
    differs from the previous one. *)
Theorem Healthy_aggregation conds (current : health.Status_) (evt : data.Event) :
  let allKnownTrue :=
    Forall (λ c, health.Status c ≠ unknown → health.Status c = Some true) conds in
  let someKnown := Exists (λ c, health.Status c ≠ unknown) conds in
  let allUnknown := Forall (λ c, health.Status c = unknown) conds in
  let next := reduceHealth current evt in
  (aggregate conds = Some true ↔ allKnownTrue ∧ someKnown)
  ∧ (aggregate conds = unknown ↔ allUnknown)
  ∧ (aggregate conds = Some false ↔ ¬ (allKnownTrue ∧ someKnown) ∧ ¬ allUnknown)
  ∧ health.Status (health.Healthy next) = aggregate (health.StatusConditions current)
  ∧ (health.LastTransitionTime (health.Healthy next)
       ≠ health.LastTransitionTime (health.Healthy current) →
     health.Status (health.Healthy next) ≠ health.Status (health.Healthy current)).
Proof.
  intros allKnownTrue someKnown allUnknown next.
  assert (Htrue : aggregate conds = Some true ↔ allKnownTrue ∧ someKnown).
  { rewrite aggregate_true. subst allKnownTrue someKnown. split.
    - intros [Ht Hf]. apply no_false_all_known_true in Hf.
      split; [done|]. by apply some_true_some_known.
    - intros [Hall Hsome]. split.
      + by apply some_true_some_known.
      + by apply no_false_all_known_true. }
  assert (Hunknown : aggregate conds = unknown ↔ allUnknown).
  { rewrite aggregate_unknown. apply no_true_no_false_all_unknown. }
  split; [done|]. split; [done|]. split; [|split].
  - rewrite <- Htrue, <- Hunknown. unfold unknown.
    destruct (aggregate conds) as [[|]|]; split; intros H;
      first [ congruence
            | split; congruence
            | destruct H as [H1 H2]; first [by destruct H1 | by destruct H2] ].
  - done.
  - subst next. unfold reduceHealth. cbn [health.Healthy health.Status
      health.LastTransitionTime].
    case_decide; [done|]. by intros _.
Qed.

(** An event at time 1000 on a status whose only sub-condition is [true]
    and whose [Healthy] condition was still [unknown]. *)
Lemma Healthy_aggregation_witness :
  let current :=
    {| health.StatusManifestID := "m1";
       health.Healthy := health.NewCondition "" zeroTime None None None;
       health.StatusConditions :=
         [health.NewCondition "Transcoding" 1000%Z (Some true) None None] |} in
  let evt := data.OfBase (data.mkBase 7%N "transcode" 1000%Z "m1") in
  let next := reduceHealth current evt in
  health.LastTransitionTime (health.Healthy next)
    ≠ health.LastTransitionTime (health.Healthy current)
  ∧ health.Status (health.Healthy next) ≠ health.Status (health.Healthy current).
Proof.
  intros current evt next.
  assert (H : health.LastTransitionTime (health.Healthy next)
                ≠ health.LastTransitionTime (health.Healthy current))
    by (vm_compute; discriminate).
  split; [exact H|].
  exact (proj2 (proj2 (proj2 (proj2
           (Healthy_aggregation [] current evt)))) H).
Defined.

End health_claims.

(* ===================================================================== *)
(** * The SSE stream of a subscriber                                       *)
(* ===================================================================== *)

Section sse_stream.
Import api.

Context {SSEEvent : Type}.
Variable toSSEEvent : data.Event → SSEEvent + Err.

Abbreviation SSEChan := (SSEChan SSEEvent).
Abbreviation sendEvent := (sendEvent toSSEEvent).
Abbreviation sendEach := (sendEach toSSEEvent).
Abbreviation sendUntilDone := (sendUntilDone toSSEEvent).
Abbreviation converted := (converted toSSEEvent).

Implicit Types (ctx : Ctx) (dest : SSEChan) (evts : list data.Event).

Lemma neverCancelled_cancelledAfter ctx :
  neverCancelled ctx ↔ cancelledAfter ctx = None.
Proof.
  unfold neverCancelled. induction ctx as [|[|] ctx IH]; simpl.
  - split; [done|]. by constructor.
  - rewrite Forall_cons, IH. split.
    + intros [_ ->]. done.
    + destruct (cancelledAfter ctx); [done|]. by split.
  - split; [|done]. by intros [[=] _]%Forall_cons.
Qed.

Lemma converted_cons evt evts :
  converted (evt :: evts) =
    match toSSEEvent evt with
    | inl sseEvt => sseEvt :: converted evts
    | inr _ => converted evts
    end.
Proof. unfold api.converted, convert. simpl. by destruct (toSSEEvent evt). Qed.

Lemma converted_app evts1 evts2 :
  converted (evts1 ++ evts2) = converted evts1 ++ converted evts2.
Proof. apply omap_app. Qed.

Lemma cutAfter_nil (n : option nat) : cutAfter n ([] : list SSEEvent) = [].
Proof. destruct n as [k|]; [|done]. by destruct k. Qed.

(** The goroutine's loops: what has been sent when a loop ends is what was
    sent before followed by the events that convert, cut where the
    context won its first select. *)
Lemma sendUntilDone_sent evts ctx dest ok ctx' dest' :
  sendUntilDone ctx dest evts = (ok, ctx', dest') →
  sent dest' = sent dest ++ cutAfter (cancelledAfter ctx) (converted evts)
  ∧ capacity dest' = capacity dest
  ∧ closed dest' = closed dest
  ∧ (if ok
     then cancelledAfter ctx'
            = (λ k, k - length (converted evts)) <$> cancelledAfter ctx
          ∧ (∀ k, cancelledAfter ctx = Some k → length (converted evts) ≤ k)
     else ∃ k, cancelledAfter ctx = Some k ∧ k < length (converted evts)).
Proof.
  revert ctx dest. induction evts as [|evt rest IH]; intros ctx dest.
  - intros [= <- <- <-]. rewrite cutAfter_nil, app_nil_r.
    repeat split; [|simpl; lia].
    destruct (cancelledAfter ctx); simpl; [f_equal; lia|done].
  - cbn [api.sendUntilDone]. unfold api.sendEvent. rewrite converted_cons.
    destruct (toSSEEvent evt) as [sseEvt|e]; [|by apply IH].
    destruct ctx as [|[|] ctx0]; cbn [select cancelledAfter].
    + intros Hrest. apply IH in Hrest as (Hsent & Hcap & Hclosed & Hok).
      cbn [sent send capacity closed cancelledAfter cutAfter] in *.
      rewrite Hsent, <- app_assoc. repeat split; try done.
      destruct ok; [|by destruct Hok as (k & [=] & _)].
      destruct Hok as [-> _]. by split.
    + intros Hrest. apply IH in Hrest as (Hsent & Hcap & Hclosed & Hok).
      cbn [sent send capacity closed] in *.
      rewrite Hsent, <- app_assoc. repeat split; try done.
      * destruct (cancelledAfter ctx0); done.
      * destruct ok.
        -- destruct Hok as [-> Hle]. split.
           ++ destruct (cancelledAfter ctx0); simpl; [f_equal; lia|done].
           ++ intros k. destruct (cancelledAfter ctx0) as [k0|]; [|done].
              intros [= <-]. specialize (Hle k0 eq_refl). simpl. lia.
        -- destruct Hok as (k & -> & Hlt). exists (S k). simpl. split; [done|lia].
    + intros [= <- <- <-]. cbn [cutAfter take]. rewrite app_nil_r.
      repeat split. exists 0. simpl. split; [done|lia].
Qed.

(** The loop that ignores the result of [sendEvent]: events may be left
    out, none is added or moved, and none is left out of the ones that
    convert unless the context is cancelled. *)
Lemma sendEach_sent evts ctx dest ctx' dest' :
  sendEach ctx dest evts = (ctx', dest') →
  ∃ l, sent dest' = sent dest ++ l
       ∧ l `sublist_of` converted evts
       ∧ capacity dest' = capacity dest
       ∧ closed dest' = closed dest
       ∧ (neverCancelled ctx → l = converted evts).
Proof.
  revert ctx dest. induction evts as [|evt rest IH]; intros ctx dest.
  - intros [= <- <-]. exists []. rewrite app_nil_r. by repeat split.
  - cbn [api.sendEach]. unfold api.sendEvent. rewrite converted_cons.
    destruct (toSSEEvent evt) as [sseEvt|e]; [|by apply IH].
    destruct ctx as [|[|] ctx0]; cbn [select]; intros Hrest;
      apply IH in Hrest as (l & Hsent & Hsub & Hcap & Hclosed & Hall);
      cbn [sent send capacity closed] in *.
    + exists (sseEvt :: l). rewrite Hsent, <- app_assoc.
      repeat split; try done; [by apply sublist_skip|].
      intros _. f_equal. apply Hall. constructor.
    + exists (sseEvt :: l). rewrite Hsent, <- app_assoc.
      repeat split; try done; [by apply sublist_skip|].
      intros [_ Hnever]%Forall_cons. f_equal. by apply Hall.
    + exists l. repeat split; try done; [by apply sublist_cons|].
      by intros [[=] _]%Forall_cons.
Qed.

(** The channel of a request without a live subscription. *)
Lemma makeSSEEventChan_past ctx evts :
  let events := makeSSEEventChan toSSEEvent ctx evts None in
  closed events = true
  ∧ capacity events = length evts
  ∧ sent events `sublist_of` converted evts
  ∧ (neverCancelled ctx → sent events = converted evts).
Proof.
  unfold makeSSEEventChan.
  destruct (sendEach ctx (make (length evts)) evts) as [ctx' events] eqn:Hrun.
  apply sendEach_sent in Hrun as (l & Hsent & Hsub & Hcap & _ & Hall).
  cbn [close closed capacity sent make app] in *. rewrite Hsent, Hcap.
  by repeat split.
Qed.

(** The channel of a subscriber: backlog, then live events. *)
Lemma makeSSEEventChan_live ctx evts (live : Subscription) :
  let events := makeSSEEventChan toSSEEvent ctx evts (Some live) in
  closed events = true
  ∧ capacity events = sseBufferSize
  ∧ sent events = cutAfter (cancelledAfter ctx) (converted evts ++ converted live).
Proof.
  unfold makeSSEEventChan.
  destruct (sendUntilDone ctx (make sseBufferSize) evts)
    as [[ok ctx1] events1] eqn:Hpast.
  apply sendUntilDone_sent in Hpast as (Hsent1 & Hcap1 & _ & Hok1).
  cbn [make sent capacity app] in *.
  destruct ok.
  - destruct (sendUntilDone ctx1 events1 live) as [[ok2 ctx2] events2] eqn:Hlive.
    apply sendUntilDone_sent in Hlive as (Hsent2 & Hcap2 & _ & _).
    cbn [close closed capacity sent]. rewrite Hsent2, Hcap2, Hsent1, Hcap1.
    repeat split. destruct Hok1 as [-> Hle].
    destruct (cancelledAfter ctx) as [k|]; cbn [cutAfter fmap option_fmap option_map].
    + specialize (Hle k eq_refl). by rewrite take_ge, take_app_ge.
    + done.
  - cbn [close closed capacity sent]. rewrite Hsent1, Hcap1.
    repeat split. destruct Hok1 as (k & -> & Hlt). cbn [cutAfter].
    rewrite take_app_le by lia. done.
Qed.

Lemma makeSSEEventChan_prefix ctx evts (live : Subscription) :
  sent (makeSSEEventChan toSSEEvent ctx evts (Some live))
    `prefix_of` converted evts ++ converted live.
Proof.
  destruct (makeSSEEventChan_live ctx evts live) as (_ & _ & ->).
  destruct (cancelledAfter ctx); [apply prefix_take|done].
Qed.

End sse_stream.

(* ===================================================================== *)
(** * The events endpoint                                                  *)
(* ===================================================================== *)

Section events_endpoint.
Import api.

Context {SSEEvent : Type}.
Variable toSSEEvent : data.Event → SSEEvent + Err.
Variable ServeEvents : SSEChan SSEEvent → option (ServeError).

Abbreviation handle := (subscribeEvents toSSEEvent ServeEvents).
Abbreviation chanOf := (makeSSEEventChan toSSEEvent).
Abbreviation sseOf := (converted toSSEEvent).
Abbreviation thenReport := (afterServe ServeEvents).

Implicit Types (core : Core) (ctx : Ctx) (r : Request).

Lemma nonNilErrs_not_found (errs : list (option string)) :
  existsb isNotFound (nonNilErrs errs) = false.
Proof.
  unfold nonNilErrs. induction errs as [|[msg|] errs IH]; simpl; done.
Qed.

Lemma respondError_parse (errs : list (option string)) :
  respondError (SSEEvent:=SSEEvent) StatusBadRequest (nonNilErrs errs)
  = Respond StatusBadRequest (nonNilErrs errs).
Proof. unfold respondError. by rewrite nonNilErrs_not_found. Qed.

Lemma afterServe_responds (events : SSEChan SSEEvent) :
  Forall (λ e, isCoreCall e = false ∧ isServe e = false) (thenReport events).
Proof.
  unfold afterServe. destruct (ServeEvents events) as [[status cause|e]|];
    repeat constructor.
Qed.

Lemma eventsAfter_None (id : UUID) (events : list data.Event) :
  eventsAfter id events = None ↔ id ∉ data.EventID <$> events.
Proof.
  induction events as [|e rest IH]; simpl.
  - split; [|done]. intros _. apply not_elem_of_nil.
  - rewrite not_elem_of_cons. case_decide as He.
    + split; [done|]. by intros [Hne _].
    + rewrite IH. split; [|by intros [_ ?]]. intros ?. split; [|done]. congruence.
Qed.

Lemma converted_all (f : data.Event → SSEEvent) (evts : list data.Event) :
  (∀ e, e ∈ evts → toSSEEvent e = inl (f e)) → sseOf evts = f <$> evts.
Proof.
  induction evts as [|e rest IH]; intros Hall; [done|].
  rewrite converted_cons, (Hall e) by apply list_elem_of_here.
  rewrite IH; [done|]. intros e' He'. apply Hall. by apply list_elem_of_further.
Qed.

(** C5, as amended.  The SSE stream of a subscriber is closed at the end
    and holds, in order, the SSE form of the backlog events followed by
    that of the live events, leaving out the events that do not convert
    and stopping where the context is cancelled.  It is therefore always a
    prefix of backlog-then-live, and the whole of it when the context is
    never cancelled; when moreover every event converts, it is the image
    of the backlog followed by the image of the live events. *)
Theorem SSE_stream_order ctx (past : list data.Event) (live : Subscription)
    (f : data.Event → SSEEvent) :
  let events := chanOf ctx past (Some live) in
  closed events = true
  ∧ sent events = cutAfter (cancelledAfter ctx) (sseOf past ++ sseOf live)
  ∧ sent events `prefix_of` sseOf past ++ sseOf live
  ∧ (neverCancelled ctx → sent events = sseOf past ++ sseOf live)
  ∧ (neverCancelled ctx →
     (∀ e, e ∈ past ++ live → toSSEEvent e = inl (f e)) →
     sent events = (f <$> past) ++ (f <$> live)).
Proof.
  intros events.
  destruct (makeSSEEventChan_live toSSEEvent ctx past live) as (Hclosed & _ & Hsent).
  fold events in Hclosed, Hsent.
  assert (Hwhole : neverCancelled ctx → sent events = sseOf past ++ sseOf live).
  { intros Hctx%neverCancelled_cancelledAfter. by rewrite Hsent, Hctx. }
  repeat split; try done.
  - apply makeSSEEventChan_prefix.
  - intros Hctx Hall. rewrite (Hwhole Hctx).
    rewrite <- converted_app, <- fmap_app. by apply converted_all.
Qed.

(** C10, as amended.  When [to] is supplied and [from] is absent the
    handler answers with status 400 and does nothing else: no call into
    the core, nothing served.  When moreover all three parameters parsed
    without error, the error of the answer is the one that asks for
    [from]. *)
Theorem to_requires_from core ctx r (t : Time) :
  (to r).1 = Some t →
  (from r).1 = None →
  (∃ errs, handle core ctx r = [Respond StatusBadRequest errs] ∧ errs ≠ [])
  ∧ Forall (λ e, isCoreCall e = false ∧ isServe e = false) (handle core ctx r)
  ∧ ((lastEventID r).2 = None → (from r).2 = None → (to r).2 = None →
     handle core ctx r =
       [Respond StatusBadRequest
          [ErrorString "query 'from' is required when using 'to'"]]).
Proof.
  unfold subscribeEvents.
  destruct (lastEventID r) as [l err], (from r) as [f err1], (to r) as [t' err2].
  simpl. intros -> ->.
  case_bool_decide as Herrs.
  - rewrite respondError_parse. split; [|split].
    + eexists. split; [done|]. intros Hnil. rewrite Hnil in Herrs. simpl in Herrs. lia.
    + by repeat constructor.
    + intros -> -> ->. simpl in Herrs. lia.
  - split; [|split].
    + eexists. by split.
    + by repeat constructor.
    + done.
Qed.

(** C4, as amended.  When [from] and [to] are both supplied and the
    parameters parsed without error, the handler queries the past events,
    never subscribes, and serves a channel made without a subscription:
    it is closed once the past events have been sent.  The events it is
    made from are the events of the history whose timestamp is at or after
    [from] and before [to], in history order; the channel holds their SSE
    form, all of it when the context is never cancelled. *)
Theorem bounded_query_history core ctx r (l : option UUID) (f t : Time) :
  lastEventID r = (l, None) →
  from r = (Some f, None) →
  to r = (Some t, None) →
  let slice :=
    filter (λ e, (f ≤ data.EventTimestamp e < t)%Z) (history core (streamID r)) in
  let events := chanOf ctx slice None in
  handle core ctx r =
    CallGetPastEvents (streamID r) (Some f) (Some t) :: Serve events :: thenReport events
  ∧ Forall (λ e, isSubscribe e = false) (handle core ctx r)
  ∧ closed events = true
  ∧ sent events `sublist_of` sseOf slice
  ∧ (neverCancelled ctx → sent events = sseOf slice).
Proof.
  intros Hl Hf Ht slice events.
  assert (Hrun : handle core ctx r =
    CallGetPastEvents (streamID r) (Some f) (Some t) :: Serve events :: thenReport events).
  { assert (Hslice : (GetPastEvents core (streamID r) (Some f) (Some t)).1 = slice).
    { unfold GetPastEvents. cbn [fst]. apply list_filter_iff. intros e.
      unfold inRange. by rewrite andb_true_iff, Z.leb_le, Z.ltb_lt. }
    unfold subscribeEvents. rewrite Hl, Hf, Ht. cbn [nonNilErrs omap fmap list_fmap].
    unfold GetPastEvents in *. cbn [fst] in Hslice. rewrite Hslice. done. }
  destruct (makeSSEEventChan_past toSSEEvent ctx slice) as (Hclosed & _ & Hsub & Hall).
  split; [done|]. split; [|by repeat split].
  rewrite Hrun. do 2 constructor; [done..|].
  eapply Forall_impl; [apply afterServe_responds|].
  intros e [He _]. by destruct e.
Qed.

(** C2, as amended.  A request without [to], whose parameters parsed
    without error, carries a [lastEventID] that the history of the
    stream's record does not hold.  With [mustFindLast] the handler
    subscribes once and answers 404 with [ErrEventNotFound].  Without it
    the handler subscribes a second time with no cursor at all and serves
    the whole retained history followed by the live events. *)
Theorem unknown_cursor core ctx r (id : UUID) (f : option Time)
    (rec : health.Record_) :
  lastEventID r = (Some id, None) →
  from r = (f, None) →
  to r = (None, None) →
  recordOf core (streamID r) = Some rec →
  id ∉ data.EventID <$> health.PastEvents rec →
  let events :=
    chanOf ctx (health.PastEvents rec) (Some (published core (streamID r))) in
  (mustFindLast r = true →
     handle core ctx r =
       [CallSubscribeEvents (streamID r) (Some id) f;
        Respond StatusNotFound [ErrEventNotFound]])
  ∧ (mustFindLast r = false →
     handle core ctx r =
       CallSubscribeEvents (streamID r) (Some id) f
       :: CallSubscribeEvents (streamID r) None None
       :: Serve events :: thenReport events)
  ∧ sent events `prefix_of`
      sseOf (health.PastEvents rec) ++ sseOf (published core (streamID r)).
Proof.
  intros Hl Hf Ht Hrec Hid%eventsAfter_None events.
  split; [|split].
  - intros Hmust. unfold subscribeEvents, SubscribeEvents.
    rewrite Hl, Hf, Ht, Hrec, Hid, Hmust. done.
  - intros Hmust. unfold subscribeEvents, SubscribeEvents.
    rewrite Hl, Hf, Ht, Hrec, Hid, Hmust. done.
  - apply makeSSEEventChan_prefix.
Qed.

End events_endpoint.

(* ===================================================================== *)
(** * Worked requests                                                      *)
(* ===================================================================== *)

Section worked_requests.
Import api samples.

Abbreviation handleM1 := (subscribeEvents plainSSE served core).

Lemma recordOf_m1 : recordOf core "m1" = Some recordM1.
Proof. vm_compute. reflexivity. Qed.

Lemma unknown_id_99 : (99%N : UUID) ∉ data.EventID <$> health.PastEvents recordM1.
Proof. apply (bool_decide_unpack _). vm_compute. exact I. Qed.

(** A subscriber whose context is never cancelled gets [e1], [e2] from
    the backlog and then [e3] from the live channel. *)
Lemma SSE_stream_order_witness :
  neverCancelled [true; true; true]
  ∧ sent (makeSSEEventChan plainSSE [true; true; true] [e1; e2] (Some [e3]))
    = [e1; e2] ++ [e3].
Proof.
  assert (Hctx : neverCancelled [true; true; true]) by repeat constructor.
  split; [exact Hctx|].
  exact (proj1 (proj2 (proj2 (proj2
           (SSE_stream_order plainSSE [true; true; true] [e1; e2] [e3] id)))) Hctx).
Defined.

(** Against C5 as stated.  The subscriber goes away after the first event:
    the stream is [e1] alone, not the backlog followed by the live
    events. *)
Lemma SSE_stream_cut_short :
  sent (makeSSEEventChan plainSSE [true; false] [e1; e2] (Some [e3])) = [e1]
  ∧ sent (makeSSEEventChan plainSSE [true; false] [e1; e2] (Some [e3]))
    ≠ [e1; e2] ++ [e3].
Proof. split; [vm_compute; reflexivity|]. vm_compute. discriminate. Qed.

(** [?to=2000] alone. *)
Lemma to_requires_from_witness :
  let r := request (None, None) (None, None) (Some 2000%Z, None) false in
  (to r).1 = Some 2000%Z
  ∧ (from r).1 = None
  ∧ handleM1 [] r =
      [Respond StatusBadRequest
         [ErrorString "query 'from' is required when using 'to'"]].
Proof.
  intros r. split; [reflexivity|]. split; [reflexivity|].
  exact (proj2 (proj2 (to_requires_from plainSSE served core [] r 2000%Z
                         eq_refl eq_refl)) eq_refl eq_refl eq_refl).
Defined.

(** Against C10 as stated.  [?to=2000] with a [Last-Event-ID] header that
    is not a UUID: the answer is a 400, but it reports the parse error, not
    the missing [from]. *)
Lemma to_without_from_bad_cursor :
  let r := request (None, Some "invalid UUID") (None, None) (Some 2000%Z, None) false in
  (to r).1 = Some 2000%Z
  ∧ (from r).1 = None
  ∧ handleM1 [] r = [Respond StatusBadRequest [ErrorString "invalid UUID"]]
  ∧ handleM1 [] r ≠
      [Respond StatusBadRequest
         [ErrorString "query 'from' is required when using 'to'"]].
Proof.
  intros r. split; [reflexivity|]. split; [reflexivity|].
  split; [vm_compute; reflexivity|]. vm_compute. discriminate.
Qed.

(** [?from=1000&to=2000]: of the history [e1] (at 1000) and [e2] (at 2000)
    only [e1] is served, on a channel that is then closed. *)
Lemma bounded_query_history_witness :
  let r := request (None, None) (Some 1000%Z, None) (Some 2000%Z, None) false in
  handleM1 [] r =
    [CallGetPastEvents "m1" (Some 1000%Z) (Some 2000%Z);
     Serve {| capacity := 1; sent := [e1]; closed := true |}].
Proof.
  intros r.
  rewrite (proj1 (bounded_query_history plainSSE served core [] r None 1000%Z 2000%Z
                    eq_refl eq_refl eq_refl)).
  vm_compute. reflexivity.
Defined.

(** Against C4 as stated.  [?to=2000] alone is a request in which [to] is
    supplied, and nothing is queried or served for it. *)
Lemma bounded_query_without_from :
  let r := request (None, None) (None, None) (Some 2000%Z, None) false in
  (to r).1 = Some 2000%Z
  ∧ handleM1 [] r =
      [Respond StatusBadRequest
         [ErrorString "query 'from' is required when using 'to'"]]
  ∧ existsb isServe (handleM1 [] r) = false
  ∧ existsb isCoreCall (handleM1 [] r) = false.
Proof. intros r. repeat split; vm_compute; reflexivity. Qed.

(** A [Last-Event-ID] that the history of [m1] does not hold, without
    [to]: 404 with [mustFindLast], the whole history and then the live
    events without it. *)
Lemma unknown_cursor_witness :
  handleM1 [] (request (Some 99%N, None) (None, None) (None, None) true) =
    [CallSubscribeEvents "m1" (Some 99%N) None;
     Respond StatusNotFound [ErrEventNotFound]]
  ∧ handleM1 [] (request (Some 99%N, None) (None, None) (None, None) false) =
    [CallSubscribeEvents "m1" (Some 99%N) None;
     CallSubscribeEvents "m1" None None;
     Serve {| capacity := sseBufferSize; sent := [e1; e2; e3]; closed := true |}].
Proof.
  split.
  - exact (proj1 (unknown_cursor plainSSE served core []
                    (request (Some 99%N, None) (None, None) (None, None) true)
                    99%N None recordM1 eq_refl eq_refl eq_refl
                    recordOf_m1 unknown_id_99) eq_refl).
  - rewrite (proj1 (proj2 (unknown_cursor plainSSE served core []
                    (request (Some 99%N, None) (None, None) (None, None) false)
                    99%N None recordM1 eq_refl eq_refl eq_refl
                    recordOf_m1 unknown_id_99)) eq_refl).
    vm_compute. reflexivity.
Defined.

(** Against C2 as stated.  The same unknown [Last-Event-ID] with
    [mustFindLast] on a request that also has [from] and [to]: the cursor
    is not looked at, the past events are served and no 404 is sent. *)
Lemma unknown_cursor_with_to :
  let r := request (Some 99%N, None) (Some 0%Z, None) (Some 5000%Z, None) true in
  ((99%N : UUID) ∉ data.EventID <$> history core (streamID r))
  ∧ mustFindLast r = true
  ∧ handleM1 [] r =
      [CallGetPastEvents "m1" (Some 0%Z) (Some 5000%Z);
       Serve {| capacity := 2; sent := [e1; e2]; closed := true |}]
  ∧ existsb (respondsWith StatusNotFound) (handleM1 [] r) = false.
Proof.
  intros r. split; [exact unknown_id_99|].
  repeat split; vm_compute; reflexivity.
Qed.

End worked_requests.

(* ===================================================================== *)
(** * More on the record store under concurrent callers                    *)
(* ===================================================================== *)

Section store_runs.
Import health concurrency.

Implicit Types (s : RecordStorage) (m : string) (p : loc)
               (C : list ConditionType) (c : Caller) (cfg : Config)
               (calls : list (string * list ConditionType)).

Lemma stepCaller_heap c s : ∃ l, heap (stepCaller c s).2 = heap s ++ l.
Proof.
  destruct c as [m C|m new|m r]; simpl.
  - rewrite Get_lookup. destruct (records s !! m); simpl.
    + exists []. by rewrite app_nil_r.
    + by eexists.
  - unfold LoadOrStore. destruct (records s !! m); simpl;
      exists []; by rewrite app_nil_r.
  - exists []. by rewrite app_nil_r.
Qed.

Lemma stepCaller_deref c s p (rec : Record_) :
  heap s !! p = Some rec → heap (stepCaller c s).2 !! p = Some rec.
Proof.
  intros Hp. destruct (stepCaller_heap c s) as [l ->].
  by apply lookup_app_l_Some.
Qed.

Lemma stepCaller_manifest c s : manifestOf (stepCaller c s).1 = manifestOf c.
Proof.
  destruct c as [m C|m new|m r]; simpl; [| |done].
  - rewrite Get_lookup. by destruct (records s !! m).
  - unfold LoadOrStore. by destruct (records s !! m).
Qed.

Lemma stepCaller_stage c s :
  stage (stepCaller c s).1 = 2 ∨ stage (stepCaller c s).1 = S (stage c).
Proof.
  destruct c as [m C|m new|m r]; simpl; [| |by left].
  - rewrite Get_lookup. destruct (records s !! m); simpl; [by left|by right].
  - unfold LoadOrStore. destruct (records s !! m); simpl; by left.
Qed.

Lemma stepAt_length i cfg : length (stepAt i cfg).1 = length cfg.1.
Proof.
  unfold stepAt. destruct (cfg.1 !! i) as [c|]; [|done].
  destruct (stepCaller c cfg.2). simpl. by rewrite length_insert.
Qed.

Lemma stepAt_other i j cfg : i ≠ j → (stepAt i cfg).1 !! j = cfg.1 !! j.
Proof.
  intros Hne. unfold stepAt. destruct (cfg.1 !! i) as [c|]; [|done].
  destruct (stepCaller c cfg.2). simpl. by rewrite list_lookup_insert_ne.
Qed.

Lemma stepAt_self i cfg c :
  cfg.1 !! i = Some c →
  (stepAt i cfg).1 !! i = Some (stepCaller c cfg.2).1
  ∧ (stepAt i cfg).2 = (stepCaller c cfg.2).2.
Proof.
  intros Hi. unfold stepAt. rewrite Hi.
  destruct (stepCaller c cfg.2) as [c' s'] eqn:Hstep. simpl.
  split; [|done]. apply list_lookup_insert_eq. by eapply lookup_lt_Some.
Qed.

Lemma stepAt_heap i cfg : ∃ l, heap (stepAt i cfg).2 = heap cfg.2 ++ l.
Proof.
  destruct (cfg.1 !! i) as [c|] eqn:Hi.
  - destruct (stepAt_self i cfg c Hi) as [_ ->]. apply stepCaller_heap.
  - unfold stepAt. rewrite Hi. exists []. by rewrite app_nil_r.
Qed.

(** The progress of caller [i] along a run: every turn moves it one stage
    further until it has returned, and no turn of another caller moves it
    or changes the manifest it works for. *)
Lemma run_progress schedule cfg i c :
  cfg.1 !! i = Some c →
  ∃ c', (run schedule cfg).1 !! i = Some c'
        ∧ manifestOf c' = manifestOf c
        ∧ (stage c' = 2 ∨ stage c' = stage c + turns i schedule).
Proof.
  revert cfg c. unfold run.
  induction schedule as [|j sch IH]; intros cfg c Hi.
  - exists c. repeat split; [done|]. right. unfold turns. simpl. lia.
  - cbn [foldl]. destruct (decide (j = i)) as [->|Hne].
    + destruct (stepAt_self i cfg c Hi) as [Hi' _].
      destruct (IH _ _ Hi') as (c' & Hc' & Hm & Hst).
      exists c'. split; [done|]. split.
      { by rewrite Hm, stepCaller_manifest. }
      unfold turns in *. rewrite filter_cons_True by done. cbn [length].
      destruct Hst as [?|Hst]; [by left|].
      destruct (stepCaller_stage c cfg.2) as [H2|HS].
      * rewrite H2 in Hst. assert (stage c' ≤ 2) by (destruct c'; simpl; lia).
        left. lia.
      * right. lia.
    + assert (Hi' : (stepAt j cfg).1 !! i = Some c) by (by rewrite stepAt_other).
      destruct (IH _ _ Hi') as (c' & Hc' & Hm & Hst).
      exists c'. repeat split; [done..|].
      unfold turns in *. by rewrite filter_cons_False.
Qed.

(** X1.  [GetOrCreate] is wait-free: whatever the other callers do, a caller
    that the schedule lets move twice has returned, for the manifest it was
    called with. *)
Theorem GetOrCreate_wait_free calls s schedule i m C :
  calls !! i = Some (m, C) →
  2 ≤ turns i schedule →
  ∃ r, (run schedule (spawn calls, s)).1 !! i = Some (Returned m r).
Proof.
  intros Hi Hturns.
  assert (Hc : (spawn calls, s).1 !! i = Some (Calling m C)).
  { unfold spawn. simpl. by rewrite list_lookup_fmap, Hi. }
  destruct (run_progress schedule _ i _ Hc) as (c' & Hc' & Hm & Hst).
  destruct c' as [m' C'|m' new|m' r]; simpl in *.
  - destruct Hst; lia.
  - destruct Hst; lia.
  - subst m'. by exists r.
Qed.

Lemma GetOrCreate_wait_free_witness :
  ∃ r, (run [1; 0; 1; 0] (spawn [("m1", ["Transcoding"]); ("m2", [])], emptyStorage)).1
         !! 1 = Some (Returned "m2" r).
Proof.
  apply (GetOrCreate_wait_free _ emptyStorage [1; 0; 1; 0] 1 "m2" []).
  - reflexivity.
  - vm_compute. lia.
Defined.

Lemma pending_stepCaller c0 c s : pending c0 s → pending c0 (stepCaller c s).2.
Proof.
  destruct c0 as [m C|m new|m r]; [done| |done].
  intros (rec & Hrec & Hm). exists rec. split; [|done]. by apply stepCaller_deref.
Qed.

Lemma consistent_stepCaller c s :
  consistent s → pending c s → consistent (stepCaller c s).2.
Proof.
  intros Hs Hc. destruct c as [m C|m new|m r]; simpl; [| |done].
  - rewrite Get_lookup. destruct (records s !! m) as [q|] eqn:Hm; simpl; [done|].
    intros m0 p Hp. destruct (Hs m0 p Hp) as (rec & Hrec & Hm0).
    exists rec. split; [|done]. by apply lookup_app_l_Some.
  - unfold LoadOrStore. destruct (records s !! m) as [q|] eqn:Hm; simpl; [done|].
    intros m0 p. cbn [records heap]. destruct (decide (m = m0)) as [<-|Hne].
    + rewrite lookup_insert_eq. by intros [= <-].
    + rewrite lookup_insert_ne by done. apply Hs.
Qed.

Lemma pending_stepCaller_self c s : pending (stepCaller c s).1 (stepCaller c s).2.
Proof.
  destruct c as [m C|m new|m r]; simpl; [| |done].
  - rewrite Get_lookup. destruct (records s !! m) as [q|]; simpl; [done|].
    exists (NewRecord m C). split; [|done]. by apply list_lookup_middle.
  - unfold LoadOrStore. by destruct (records s !! m).
Qed.

Lemma sound_stepAt i cfg : sound cfg → sound (stepAt i cfg).
Proof.
  intros [Hs Hcs]. destruct (cfg.1 !! i) as [c|] eqn:Hi.
  - destruct (stepAt_self i cfg c Hi) as [Hi' Hs']. split.
    + rewrite Hs'. apply consistent_stepCaller; [done|]. by apply (Hcs i).
    + intros j cj Hj. rewrite Hs'. destruct (decide (i = j)) as [<-|Hne].
      * rewrite Hi' in Hj. injection Hj as <-. apply pending_stepCaller_self.
      * rewrite stepAt_other in Hj by done.
        apply pending_stepCaller. by apply (Hcs j).
  - unfold stepAt. by rewrite Hi.
Qed.

Lemma sound_run schedule cfg : sound cfg → sound (run schedule cfg).
Proof.
  revert cfg. unfold run.
  induction schedule as [|i sch IH]; intros cfg Hcfg; [done|].
  simpl. apply IH. by apply sound_stepAt.
Qed.

Lemma sound_spawn calls s : consistent s → sound (spawn calls, s).
Proof.
  intros Hs. split; [done|]. intros i c. unfold spawn. simpl.
  rewrite list_lookup_fmap. destruct (calls !! i); [|done]. by intros [= <-].
Qed.

Lemma consistent_empty : consistent emptyStorage.
Proof. intros m p. cbn [emptyStorage records]. by rewrite lookup_empty. Qed.

Lemma returned_record_of_manifest calls s schedule i m (r : loc) :
  consistent s →
  (run schedule (spawn calls, s)).1 !! i = Some (Returned m r) →
  ∃ rec, deref r (run schedule (spawn calls, s)).2 = Some rec
         ∧ ManifestID rec = m.
Proof.
  intros Hs Hi.
  destruct (sound_run schedule _ (sound_spawn calls s Hs)) as [Hfinal _].
  apply Hfinal. by apply (agreed_run schedule _ (agreed_spawn calls s) i).
Qed.

(** X2.  In a store whose bindings point to records of their own manifest,
    and under any interleaving, the record a caller gets for manifest [m]
    is on the heap and is a record of [m]. *)
Theorem GetOrCreate_returns_record_of_manifest calls s schedule i m (r : loc) :
  consistent s →
  (run schedule (spawn calls, s)).1 !! i = Some (Returned m r) →
  ∃ rec, deref r (run schedule (spawn calls, s)).2 = Some rec
         ∧ ManifestID rec = m.
Proof. apply returned_record_of_manifest. Qed.

Lemma GetOrCreate_returns_record_of_manifest_witness :
  ∃ rec, deref 1 (run [0; 1; 1; 0]
                    (spawn [("m1", ["Transcoding"]); ("m1", ["Active"])],
                     emptyStorage)).2 = Some rec
         ∧ ManifestID rec = "m1".
Proof.
  apply (GetOrCreate_returns_record_of_manifest _ emptyStorage [0; 1; 1; 0] 0).
  - apply consistent_empty.
  - vm_compute. reflexivity.
Defined.

(** X3.  Under any interleaving, callers for different manifests never get
    the same record. *)
Theorem GetOrCreate_distinct_manifests calls s schedule i j m1 m2 (r1 r2 : loc) :
  consistent s →
  (run schedule (spawn calls, s)).1 !! i = Some (Returned m1 r1) →
  (run schedule (spawn calls, s)).1 !! j = Some (Returned m2 r2) →
  m1 ≠ m2 → r1 ≠ r2.
Proof.
  intros Hs Hi Hj Hne Heq. subst r2.
  destruct (returned_record_of_manifest calls s schedule i m1 r1 Hs Hi)
    as (rec1 & Hrec1 & Hm1).
  destruct (returned_record_of_manifest calls s schedule j m2 r1 Hs Hj)
    as (rec2 & Hrec2 & Hm2).
  congruence.
Qed.

Lemma GetOrCreate_distinct_manifests_witness :
  let final := run [0; 1; 1; 0]
                 (spawn [("m1", ["Transcoding"]); ("m2", ["Active"])], emptyStorage) in
  final.1 !! 0 = Some (Returned "m1" 0)
  ∧ final.1 !! 1 = Some (Returned "m2" 1)
  ∧ (0 : loc) ≠ 1.
Proof.
  intros final. split; [vm_compute; reflexivity|]. split; [vm_compute; reflexivity|].
  apply (GetOrCreate_distinct_manifests
           [("m1", ["Transcoding"]); ("m2", ["Active"])] emptyStorage
           [0; 1; 1; 0] 0 1 "m1" "m2" 0 1).
  - apply consistent_empty.
  - vm_compute. reflexivity.
  - vm_compute. reflexivity.
  - discriminate.
Defined.

Lemma freshFor_stepCaller calls m p c s :
  freshFor calls m p s → freshFor calls m p (stepCaller c s).2.
Proof.
  intros (C & HC & Hp). exists C. split; [done|]. by apply stepCaller_deref.
Qed.

Lemma tracked_stepAt calls m i cfg : tracked calls m cfg → tracked calls m (stepAt i cfg).
Proof.
  intros [Hbound Hcs]. destruct (cfg.1 !! i) as [c|] eqn:Hi;
    [|by unfold stepAt; rewrite Hi].
  destruct (stepAt_self i cfg c Hi) as [Hi' Hs'].
  pose proof (Hcs i c Hi) as Hc. split.
  - rewrite Hs'. intros p Hp.
    destruct c as [m' C|m' new|m' r]; simpl in Hp |- *.
    + rewrite Get_lookup in Hp |- *.
      destruct (records cfg.2 !! m') as [q|]; simpl in Hp |- *; [by apply Hbound|].
      destruct (Hbound p Hp) as (C0 & HC0 & Hp0).
      exists C0. split; [done|]. by apply lookup_app_l_Some.
    + unfold LoadOrStore in Hp |- *.
      destruct (records cfg.2 !! m') as [q|] eqn:Hm'; simpl in Hp |- *;
        [by apply Hbound|].
      destruct (decide (m' = m)) as [->|Hne].
      * rewrite lookup_insert_eq in Hp. injection Hp as <-.
        destruct (Hc eq_refl) as (C0 & HC0 & Hp0). by exists C0.
      * rewrite lookup_insert_ne in Hp by done. destruct (Hbound p Hp) as (C0 & HC0 & Hp0).
        by exists C0.
    + by apply Hbound.
  - intros j cj Hj. rewrite Hs'. destruct (decide (i = j)) as [<-|Hne].
    + rewrite Hi' in Hj. injection Hj as <-.
      destruct c as [m' C|m' new|m' r]; simpl; [| |done].
      * rewrite Get_lookup. destruct (records cfg.2 !! m') as [q|]; simpl; [done|].
        intros ->. exists C. split; [by apply Hc|]. by apply list_lookup_middle.
      * unfold LoadOrStore. by destruct (records cfg.2 !! m').
    + rewrite stepAt_other in Hj by done. pose proof (Hcs j cj Hj) as Hcj.
      destruct cj as [m' C|m' new|m' r]; [done| |done].
      intros Hm. by apply freshFor_stepCaller, Hcj.
Qed.

Lemma tracked_run calls m schedule cfg :
  tracked calls m cfg → tracked calls m (run schedule cfg).
Proof.
  revert cfg. unfold run.
  induction schedule as [|i sch IH]; intros cfg Hcfg; [done|].
  simpl. apply IH. by apply tracked_stepAt.
Qed.

Lemma tracked_spawn calls m s :
  records s !! m = None → tracked calls m (spawn calls, s).
Proof.
  intros Hm. split.
  - intros p. simpl. by rewrite Hm.
  - intros i c. unfold spawn. simpl. rewrite list_lookup_fmap.
    destruct (calls !! i) as [[m' C]|] eqn:Hi; [|done].
    intros [= <-] ->. by eapply list_elem_of_lookup_2.
Qed.

(** X4.  When the manifest was not bound before, the record that the
    callers get for it, under any interleaving, is the record that
    [NewRecord] builds from the conditions list of one of the callers for
    this manifest (the one that won), untouched: that list, an empty
    history, no reducer state. *)
Theorem GetOrCreate_returns_a_callers_record calls s schedule i m (r : loc) :
  records s !! m = None →
  (run schedule (spawn calls, s)).1 !! i = Some (Returned m r) →
  ∃ C, (m, C) ∈ calls
       ∧ deref r (run schedule (spawn calls, s)).2 = Some (NewRecord m C).
Proof.
  intros Hm Hi.
  destruct (tracked_run calls m schedule _ (tracked_spawn calls m s Hm)) as [Hbound _].
  apply Hbound. by apply (agreed_run schedule _ (agreed_spawn calls s) i).
Qed.

Lemma GetOrCreate_returns_a_callers_record_witness :
  ∃ C, (("m1", C) : string * list ConditionType)
         ∈ [("m1", ["Transcoding"]); ("m1", ["Active"])]
       ∧ deref 1 (run [0; 1; 1; 0]
                    (spawn [("m1", ["Transcoding"]); ("m1", ["Active"])],
                     emptyStorage)).2 = Some (NewRecord "m1" C).
Proof.
  apply (GetOrCreate_returns_a_callers_record _ emptyStorage [0; 1; 1; 0] 0).
  - reflexivity.
  - vm_compute. reflexivity.
Defined.

Lemma run_heap schedule cfg : ∃ l, heap (run schedule cfg).2 = heap cfg.2 ++ l.
Proof.
  revert cfg. unfold run.
  induction schedule as [|i sch IH]; intros cfg.
  - exists []. by rewrite app_nil_r.
  - simpl. destruct (IH (stepAt i cfg)) as [l2 ->].
    destruct (stepAt_heap i cfg) as [l1 ->]. exists (l1 ++ l2). by rewrite app_assoc.
Qed.

Lemma stepAt_bound i cfg m p :
  records (stepAt i cfg).2 !! m = Some p →
  records cfg.2 !! m = Some p
  ∨ ∃ c, cfg.1 !! i = Some c ∧ manifestOf c = m.
Proof.
  destruct (cfg.1 !! i) as [c|] eqn:Hi; [|unfold stepAt; rewrite Hi; by left].
  destruct (stepAt_self i cfg c Hi) as [_ ->].
  destruct c as [m' C|m' new|m' r]; simpl.
  - rewrite Get_lookup. destruct (records cfg.2 !! m'); by left.
  - unfold LoadOrStore. destruct (records cfg.2 !! m') eqn:Hm'; simpl; [by left|].
    destruct (decide (m' = m)) as [->|Hne].
    + right. by eexists.
    + rewrite lookup_insert_ne by done. by left.
  - by left.
Qed.

Lemma run_bound calls schedule cfg m p :
  (∀ i c, cfg.1 !! i = Some c → manifestOf c ∈ calls.*1) →
  records (run schedule cfg).2 !! m = Some p →
  records cfg.2 !! m = Some p ∨ m ∈ calls.*1.
Proof.
  revert cfg. unfold run.
  induction schedule as [|i sch IH]; intros cfg Hcs; [by left|].
  simpl. intros Hp. apply IH in Hp as [Hp|Hp]; [|by right|].
  - apply stepAt_bound in Hp as [Hp|(c & Hi & <-)]; [by left|].
    right. by apply (Hcs i).
  - intros j cj Hj. destruct (decide (i = j)) as [<-|Hne].
    + destruct (cfg.1 !! i) as [c|] eqn:Hi.
      * destruct (stepAt_self i cfg c Hi) as [Hi' _]. rewrite Hi' in Hj.
        injection Hj as <-. rewrite stepCaller_manifest. by apply (Hcs i).
      * unfold stepAt in Hj. rewrite Hi in Hj. rewrite Hi in Hj. done.
    + rewrite stepAt_other in Hj by done. by apply (Hcs j).
Qed.

(** X5.  What the store never does, under any interleaving: it never
    removes or overwrites a record of the heap, and it never binds a
    manifest that no caller asked for. *)
Theorem store_only_grows calls s schedule :
  heap s `prefix_of` heap (run schedule (spawn calls, s)).2
  ∧ ∀ m p, records (run schedule (spawn calls, s)).2 !! m = Some p →
           records s !! m = Some p ∨ m ∈ calls.*1.
Proof.
  split.
  - destruct (run_heap schedule (spawn calls, s)) as [l ->]. by apply prefix_app_r.
  - intros m p. apply run_bound. intros i c. unfold spawn. simpl.
    rewrite list_lookup_fmap. destruct (calls !! i) as [[m' C]|] eqn:Hi; [|done].
    intros [= <-]. simpl. apply list_elem_of_fmap. exists (m', C). split; [done|].
    by eapply list_elem_of_lookup_2.
Qed.

Lemma store_only_grows_witness :
  let final := run [0; 1; 1; 0]
                 (spawn [("m1", ["Transcoding"]); ("m1", ["Active"])], emptyStorage) in
  records final.2 !! "m1" = Some 1
  ∧ (records emptyStorage !! "m1" = Some 1 ∨ "m1" ∈ ["m1"; "m1"]).
Proof.
  intros final.
  assert (H : records final.2 !! "m1" = Some 1) by (vm_compute; reflexivity).
  split; [exact H|].
  exact (proj2 (store_only_grows [("m1", ["Transcoding"]); ("m1", ["Active"])]
                  emptyStorage [0; 1; 1; 0]) "m1" 1 H).
Defined.

End store_runs.

(* ===================================================================== *)
(** * More on the events endpoint                                          *)
(* ===================================================================== *)

Section events_endpoint_more.
Import api stream.

Context {SSEEvent : Type}.
Variable toSSEEvent : data.Event → SSEEvent + Err.
Variable ServeEvents : SSEChan SSEEvent → option (ServeError).

Abbreviation handle' := (subscribeEvents toSSEEvent ServeEvents).
Abbreviation chanOf' := (makeSSEEventChan toSSEEvent).
Abbreviation sseOf' := (converted toSSEEvent).
Abbreviation report' := (afterServe ServeEvents).
Abbreviation converts' := (converts toSSEEvent).

Implicit Types (core : Core) (ctx : Ctx) (r : Request) (evts : list data.Event).

(** X6.  Parse errors come first: when any of [Last-Event-ID], [from] or
    [to] failed to parse, all the handler does is call [respondError] with
    status 400 and the parse errors, in that order of the parameters.  No
    call into the core is made and nothing is served, whatever else the
    request holds. *)
Theorem parse_errors_first core ctx r :
  let errs := omap id [(lastEventID r).2; (from r).2; (to r).2] in
  errs ≠ [] →
  handle' core ctx r = [respondError StatusBadRequest (ErrorString <$> errs)].
Proof.
  intros errs Herrs. unfold subscribeEvents. subst errs.
  destruct (lastEventID r) as [l err], (from r) as [f err1], (to r) as [t err2].
  cbn [snd] in *. unfold nonNilErrs.
  case_bool_decide as Hlen; [done|].
  destruct (omap id [err; err1; err2]); [done|]. rewrite length_fmap in Hlen.
  simpl in Hlen. lia.
Qed.

Lemma afterServe_short (events : SSEChan SSEEvent) :
  report' events = [] ∨ ∃ status errs, report' events = [Respond status errs].
Proof.
  unfold afterServe. destruct (ServeEvents events) as [[status cause|e]|];
    [right; by eexists _, _ ..|by left].
Qed.

Lemma makeSSEEventChan_closed ctx evts (subscription : option Subscription) :
  closed (chanOf' ctx evts subscription) = true.
Proof.
  destruct subscription as [live|].
  - by destruct (makeSSEEventChan_live toSSEEvent ctx evts live) as (? & _).
  - by destruct (makeSSEEventChan_past toSSEEvent ctx evts) as (? & _).
Qed.

Lemma serve_shape ctx evts (subscription : option Subscription) (err : option Err) :
  (∃ status errs, serve toSSEEvent ServeEvents ctx evts subscription err
                  = [Respond status errs])
  ∨ (∃ events, serve toSSEEvent ServeEvents ctx evts subscription err
               = Serve events :: report' events
               ∧ closed events = true).
Proof.
  unfold serve. destruct err as [e|].
  - left. by eexists _, _.
  - right. eexists. split; [done|]. apply makeSSEEventChan_closed.
Qed.

(** X7.  The shape of every run of the handler: at most two calls into the
    core, then either one error response and nothing else, or one served
    channel, closed by the time its sending loops are over, followed by at
    most one error response.  In particular the handler never calls the
    core after it has answered, and never serves after an error
    response. *)
Theorem handler_shape core ctx r :
  ∃ calls rest,
    handle' core ctx r = calls ++ rest
    ∧ Forall (λ e, isCoreCall e = true) calls
    ∧ length calls ≤ 2
    ∧ ((∃ status errs, rest = [Respond status errs])
       ∨ (∃ events, closed events = true
            ∧ (rest = [Serve events]
               ∨ ∃ status errs, rest = [Serve events; Respond status errs]))).
Proof.
  assert (Hserve : ∀ evts sub err calls,
    Forall (λ e : Effect SSEEvent, isCoreCall e = true) calls → length calls ≤ 2 →
    ∃ calls' rest,
      calls ++ serve toSSEEvent ServeEvents ctx evts sub err = calls' ++ rest
      ∧ Forall (λ e, isCoreCall e = true) calls'
      ∧ length calls' ≤ 2
      ∧ ((∃ status errs, rest = [Respond status errs])
         ∨ (∃ events, closed events = true
              ∧ (rest = [Serve events]
                 ∨ ∃ status errs, rest = [Serve events; Respond status errs])))).
  { intros evts sub err calls Hcalls Hlen. exists calls. eexists.
    split; [done|]. split; [done|]. split; [done|].
    destruct (serve_shape ctx evts sub err) as [(st & errs & ->)|(events & -> & Hcl)].
    - left. by eexists _, _.
    - right. exists events. split; [done|].
      destruct (afterServe_short events) as [->|(st & errs & ->)];
        [by left|right; by eexists _, _]. }
  unfold subscribeEvents.
  destruct (lastEventID r) as [l err], (from r) as [f err1], (to r) as [t err2].
  case_bool_decide.
  { eexists [], _. split; [done|]. split; [by constructor|].
    split; [simpl; lia|]. left. by eexists _, _. }
  destruct t as [t|].
  - destruct f as [f|].
    + destruct (GetPastEvents core (streamID r) (Some f) (Some t)) as [evts e].
      apply (Hserve evts None e [CallGetPastEvents (streamID r) (Some f) (Some t)]);
        [by repeat constructor|simpl; lia].
    + eexists [], _. split; [done|]. split; [by constructor|].
      split; [simpl; lia|]. left. by eexists _, _.
  - destruct (SubscribeEvents core (streamID r) l f) as [[evts sub] e].
    destruct (bool_decide (e = Some ErrEventNotFound) && negb (mustFindLast r)).
    + destruct (SubscribeEvents core (streamID r) None None) as [[evts' sub'] e'].
      apply (Hserve evts' sub' e'
               [CallSubscribeEvents (streamID r) l f;
                CallSubscribeEvents (streamID r) None None]);
        [by repeat constructor|simpl; lia].
    + apply (Hserve evts sub e [CallSubscribeEvents (streamID r) l f]);
        [by repeat constructor|simpl; lia].
Qed.

Lemma converted_length evts : length (sseOf' evts) ≤ length evts.
Proof.
  induction evts as [|e rest IH]; [done|].
  rewrite converted_cons. destruct (toSSEEvent e); simpl; lia.
Qed.

(** X8.  The channel of a request without a live subscription is made with
    room for every past event, so that none of its sends can block: what
    has been sent on it never exceeds its capacity, and it is closed. *)
Theorem past_channel_never_full ctx evts :
  let events := makeSSEEventChan toSSEEvent ctx evts None in
  capacity events = length evts
  ∧ length (sent events) ≤ capacity events
  ∧ closed events = true.
Proof.
  intros events.
  destruct (makeSSEEventChan_past toSSEEvent ctx evts) as (Hclosed & Hcap & Hsub & _).
  fold events in Hclosed, Hcap, Hsub. repeat split; [done| |done].
  rewrite Hcap. apply sublist_length in Hsub. pose proof (converted_length evts). lia.
Qed.

Lemma sendEach_converts ctx (dest : SSEChan SSEEvent) evts :
  sendEach toSSEEvent ctx dest evts
  = sendEach toSSEEvent ctx dest (filter (λ e, converts' e = true) evts).
Proof.
  revert ctx dest. induction evts as [|e rest IH]; intros ctx dest; [done|].
  destruct (toSSEEvent e) as [sseEvt|err] eqn:He.
  - rewrite filter_cons_True by (unfold converts; by rewrite He).
    cbn [sendEach]. unfold sendEvent. rewrite He.
    destruct (select ctx) as [[|] ctx']; apply IH.
  - rewrite filter_cons_False by (unfold converts; by rewrite He).
    cbn [sendEach]. unfold sendEvent. rewrite He. apply IH.
Qed.

Lemma sendUntilDone_converts ctx (dest : SSEChan SSEEvent) evts :
  sendUntilDone toSSEEvent ctx dest evts
  = sendUntilDone toSSEEvent ctx dest (filter (λ e, converts' e = true) evts).
Proof.
  revert ctx dest. induction evts as [|e rest IH]; intros ctx dest; [done|].
  destruct (toSSEEvent e) as [sseEvt|err] eqn:He.
  - rewrite filter_cons_True by (unfold converts; by rewrite He).
    cbn [sendUntilDone]. unfold sendEvent. rewrite He.
    destruct (select ctx) as [[|] ctx']; [apply IH|done].
  - rewrite filter_cons_False by (unfold converts; by rewrite He).
    cbn [sendUntilDone]. unfold sendEvent. rewrite He. apply IH.
Qed.

(** X9.  An event that has no SSE form is passed over without a trace: it
    takes no turn at the select, does not end the stream, and what is sent
    on the channel, with or without a live subscription, is what would be
    sent if the events without an SSE form were not there at all. *)
Theorem bad_events_leave_no_trace ctx evts (subscription : option Subscription) :
  let good := filter (λ e, converts' e = true) in
  sent (chanOf' ctx evts subscription)
  = sent (chanOf' ctx (good evts) (good <$> subscription))
  ∧ closed (chanOf' ctx evts subscription)
    = closed (chanOf' ctx (good evts) (good <$> subscription)).
Proof.
  intros good. rewrite !makeSSEEventChan_closed. split; [|done].
  unfold makeSSEEventChan. destruct subscription as [live|];
    cbn [fmap option_fmap option_map].
  - subst good. rewrite (sendUntilDone_converts ctx _ evts).
    destruct (sendUntilDone toSSEEvent ctx (make sseBufferSize)
                (filter (λ e, converts' e = true) evts)) as [[[|] ctx1] events1];
      [|done].
    by rewrite (sendUntilDone_converts ctx1 _ live).
  - subst good.
    assert (Hsent : ∀ ctx0 (d1 d2 : SSEChan SSEEvent) l,
      sent d1 = sent d2 →
      sent (sendEach toSSEEvent ctx0 d1 l).2 = sent (sendEach toSSEEvent ctx0 d2 l).2).
    { intros ctx0 d1 d2 l. revert ctx0 d1 d2.
      induction l as [|e rest IH]; intros ctx0 d1 d2 Hd; [done|].
      cbn [sendEach]. unfold sendEvent.
      destruct (toSSEEvent e) as [sseEvt|err]; [|by apply IH].
      destruct (select ctx0) as [[|] ctx']; apply IH; [|done].
      cbn [send sent]. by rewrite Hd. }
    rewrite (sendEach_converts ctx _ evts).
    set (kept := filter (λ e, converts' e = true) evts).
    specialize (Hsent ctx (make (length evts)) (make (length kept)) kept eq_refl).
    destruct (sendEach toSSEEvent ctx (make (length evts)) kept) as [c1 ch1].
    destruct (sendEach toSSEEvent ctx (make (length kept)) kept) as [c2 ch2].
    cbn [snd close sent] in *. done.
Qed.

End events_endpoint_more.

(* ===================================================================== *)
(** * The middlewares                                                      *)
(* ===================================================================== *)

Section middlewares.
Import middleware.

Implicit Types (rw : ResponseWriter) (r : Request) (next : Handler).

Ltac header_lookups :=
  unfold HeaderGet, setHeader, HeaderSet; cbn [WHeader WStatus WBody];
  simplify_map_eq; try done.

(** X10.  [cors] always hands the request on, and the response it hands on
    allows any header and allows the origin of the request, with
    credentials, when the request names one, and any origin, leaving the
    credentials header alone, when it does not.  The [Server] header is
    the configured name, or left alone when no name is configured. *)
Theorem cors_allows_origin (ServerName : string) rw r :
  let origin := HeaderGet (ReqHeader r) "Origin" in
  ∃ rw',
    (∀ next, cors ServerName next rw r = next rw' r)
    ∧ HeaderGet (WHeader rw') "Access-Control-Allow-Origin"
      = (if decide (origin = "") then "*" else origin)
    ∧ HeaderGet (WHeader rw') "Access-Control-Allow-Headers" = "*"
    ∧ WHeader rw' !! "Access-Control-Allow-Credentials"
      = (if decide (origin = "") then WHeader rw !! "Access-Control-Allow-Credentials"
         else Some ["true"])
    ∧ WHeader rw' !! "Server"
      = (if decide (ServerName = "") then WHeader rw !! "Server"
         else Some [ServerName]).
Proof.
  intros origin. unfold cors. fold origin.
  destruct (decide (ServerName ≠ "")) as [Hname|Hname%dec_stable];
    destruct (decide (origin ≠ "")) as [Horigin|Horigin%dec_stable];
    (eexists; split; [intros next; reflexivity|]);
    repeat case_decide; try done; repeat split; header_lookups.
Qed.

(** X11.  [cors] touches nothing but its four headers: every other header
    of the response, its status and its body reach the next handler as
    they were, together with the unchanged request. *)
Theorem cors_frame (ServerName : string) rw r :
  ∃ rw',
    (∀ next, cors ServerName next rw r = next rw' r)
    ∧ (∀ key, key ∉ corsHeaders → WHeader rw' !! key = WHeader rw !! key)
    ∧ WStatus rw' = WStatus rw
    ∧ WBody rw' = WBody rw.
Proof.
  unfold cors.
  destruct (decide (ServerName ≠ "")), (decide (HeaderGet (ReqHeader r) "Origin" ≠ ""));
    (eexists; split; [intros next; reflexivity|]);
    (split; [|done]); intros key Hkey; unfold corsHeaders in Hkey;
    rewrite !not_elem_of_cons in Hkey; destruct Hkey as (? & ? & ? & ? & _);
    unfold setHeader, HeaderSet; cbn [WHeader];
    by rewrite ?lookup_insert_ne by done.
Qed.

Section authorization_facts.

Variable respondError : ResponseWriter → Z → AuthErr → ResponseWriter.
Variable NewRequestError : string → string → option string.
Variable URLString : string → string.
Variable Do : AuthRequest → AuthResponse + string.

Abbreviation authorize := (authorization respondError NewRequestError URLString Do).
Abbreviation requestFor := (authRequest URLString).

(** X12.  When the authorization service answers 200 or 204, the request
    goes to the next handler with the response untouched. *)
Theorem authorization_lets_through (authUrl : string) next rw r (res : AuthResponse) :
  NewRequestError (Method r) authUrl = None →
  Do (requestFor authUrl r) = inl res →
  StatusCode res = StatusOK ∨ StatusCode res = StatusNoContent →
  authorize authUrl next rw r = next rw r.
Proof.
  intros Hnew Hdo Hstatus. unfold authorization. rewrite Hnew, Hdo.
  destruct Hstatus as [->| ->]; by repeat case_bool_decide.
Qed.

(** X13.  In every other case the next handler does not run: when the
    request to the service cannot be made, when the service cannot be
    reached, or when it answers anything but 200 or 204, the response does
    not depend on the next handler. *)
Theorem authorization_blocks (authUrl : string) (next1 next2 : Handler) rw r :
  (NewRequestError (Method r) authUrl = None →
   ∀ res, Do (requestFor authUrl r) = inl res →
          StatusCode res ≠ StatusOK ∧ StatusCode res ≠ StatusNoContent) →
  authorize authUrl next1 rw r = authorize authUrl next2 rw r.
Proof.
  intros Hdenied. unfold authorization.
  destruct (NewRequestError (Method r) authUrl) as [err|]; [done|].
  destruct (Do (requestFor authUrl r)) as [res|err]; [|done].
  destruct (Hdenied eq_refl res eq_refl) as [H200 H204].
  by rewrite !bool_decide_eq_true_2.
Qed.

(** X14.  A rejection relays the answer of the service: the response gets
    its status (unless one was written before), its body after what was
    written before, and its content type when it has one; no other header
    of the response changes. *)
Theorem authorization_relays_rejection (authUrl : string) next rw r (res : AuthResponse) :
  NewRequestError (Method r) authUrl = None →
  Do (requestFor authUrl r) = inl res →
  StatusCode res ≠ StatusOK →
  StatusCode res ≠ StatusNoContent →
  let rw' := authorize authUrl next rw r in
  let contentType := HeaderGet (ResHeader res) "Content-Type" in
  WStatus rw' = Some (default (StatusCode res) (WStatus rw))
  ∧ WBody rw' = WBody rw +:+ Body res
  ∧ WHeader rw' !! "Content-Type"
    = (if decide (contentType = "") then WHeader rw !! "Content-Type"
       else Some [contentType])
  ∧ ∀ key, key ≠ "Content-Type" → WHeader rw' !! key = WHeader rw !! key.
Proof.
  intros Hnew Hdo H200 H204 rw' contentType. subst rw'. unfold authorization.
  rewrite Hnew, Hdo, !bool_decide_eq_true_2 by done. cbn [andb]. fold contentType.
  assert (Hstatus : ∀ st : option Z,
    match match st with Some st' => Some st' | None => Some (StatusCode res) end with
    | Some st' => Some st'
    | None => Some 200%Z
    end = Some (default (StatusCode res) st)) by (by intros [st|]).
  destruct (decide (contentType ≠ "")) as [Hct|Hct%dec_stable];
    case_decide; try done;
    unfold Write, WriteHeader, setHeader, HeaderSet; cbn [WHeader WStatus WBody];
    (split; [apply Hstatus|]); (split; [done|]); split; try done.
  - apply lookup_insert_eq.
  - intros key Hkey. by rewrite lookup_insert_ne.
Qed.

(** X15.  The request sent to the authorization service has the method of
    the incoming request and exactly four headers: the [Authorization] and
    [Cookie] values of the incoming request, the stream ID, and as
    [X-Original-Uri] the URL of the authorization service itself.  No other
    header of the incoming request is forwarded. *)
Theorem authorization_request (authUrl : string) r :
  let req := requestFor authUrl r in
  AMethod req = Method r
  ∧ AURL req = authUrl
  ∧ AHeader req !! "Authorization" = Some (HeaderIndex (ReqHeader r) "Authorization")
  ∧ AHeader req !! "Cookie" = Some (HeaderIndex (ReqHeader r) "Cookie")
  ∧ AHeader req !! "X-Livepeer-Stream-Id" = Some [StreamID r]
  ∧ AHeader req !! "X-Original-Uri" = Some [URLString authUrl]
  ∧ dom (AHeader req)
    = {["Authorization"; "Cookie"; "X-Livepeer-Stream-Id"; "X-Original-Uri"]}.
Proof.
  unfold authRequest, authorizationHeaders, HeaderSet. cbn [foldl AMethod AURL AHeader].
  repeat split; try (by simplify_map_eq).
  all: rewrite !dom_insert_L, dom_empty_L; set_solver.
Qed.

End authorization_facts.

End middlewares.

Section middleware_witnesses.
Import middleware middleware_samples.

Lemma cors_frame_witness :
  ∃ rw',
    (∀ next, cors "lp" next tagged getM1 = next rw' getM1)
    ∧ WHeader rw' !! "X-Request-Id" = Some ["7"].
Proof.
  destruct (cors_frame "lp" tagged getM1) as (rw' & Hnext & Hframe & _).
  exists rw'. split; [exact Hnext|].
  rewrite (Hframe "X-Request-Id"); [reflexivity|].
  apply (bool_decide_unpack _). vm_compute. exact I.
Defined.

Lemma authorization_lets_through_witness :
  authorization failWith (λ _ _, None) id (answers 204) "http://auth"
    (λ rw _, Write rw "ok") blank getM1
  = Write blank "ok".
Proof.
  apply (authorization_lets_through failWith (λ _ _, None) id (answers 204)
           "http://auth" (λ rw _, Write rw "ok") blank getM1
           {| StatusCode := 204; ResHeader := {["Content-Type" := ["text/plain"]]};
              Body := "no" |});
    [reflexivity|reflexivity|by right].
Defined.

Lemma authorization_blocks_witness :
  authorization failWith (λ _ _, None) id (answers 403) "http://auth"
    (λ rw _, Write rw "ok") blank getM1
  = authorization failWith (λ _ _, None) id (answers 403) "http://auth"
      (λ rw _, Write rw "never") blank getM1.
Proof.
  apply (authorization_blocks failWith (λ _ _, None) id (answers 403) "http://auth").
  intros _ res [= <-]. split; discriminate.
Defined.

Lemma authorization_relays_rejection_witness :
  let rw' := authorization failWith (λ _ _, None) id (answers 403) "http://auth"
               (λ rw _, Write rw "ok") blank getM1 in
  WStatus rw' = Some 403%Z ∧ WBody rw' = "no".
Proof.
  intros rw'.
  destruct (authorization_relays_rejection failWith (λ _ _, None) id (answers 403)
              "http://auth" (λ rw _, Write rw "ok") blank getM1
              {| StatusCode := 403; ResHeader := {["Content-Type" := ["text/plain"]]};
                 Body := "no" |} eq_refl eq_refl)
    as (Hstatus & Hbody & _); [discriminate|discriminate|].
  split; [exact Hstatus|exact Hbody].
Defined.

End middleware_witnesses.

(* ===================================================================== *)
(** * The usage summary query                                              *)
(* ===================================================================== *)

Section usage_queries.
Import usage.

Context {RowT : Type}.
Variable ToSql : SelectBuilder → (string * list Arg) + Err.
Variable Read : Query → RowIterator (RowT:=RowT) + Err.

Implicit Types (rows values : list RowT) (it : RowIterator (RowT:=RowT))
               (spec : QuerySpec) (opts : BigQueryOptions).

Lemma readRows_rows rows values it :
  readRows ((inl <$> rows) ++ it) values = readRows it (values ++ rows).
Proof.
  revert values. induction rows as [|row rows IH]; intros values; simpl.
  - by rewrite app_nil_r.
  - rewrite IH. by rewrite <- app_assoc.
Qed.

Lemma toTypedValues_all_rows rows : toTypedValues (inl <$> rows) = inl rows.
Proof.
  unfold toTypedValues.
  rewrite <- (app_nil_r (inl <$> rows)). by rewrite readRows_rows.
Qed.

(** X16.  [toTypedValues] returns the rows of the iterator in order when no
    [Next] fails.  When one fails, the rows read before it are dropped,
    nothing after it is read, and the result is that first error,
    wrapped. *)
Theorem toTypedValues_rows_or_first_error rows (err : Err) it :
  toTypedValues (inl <$> rows) = inl rows
  ∧ toTypedValues ((inl <$> rows) ++ inr err :: it)
    = inr (Wrapf "error reading query result" err).
Proof.
  split; [apply toTypedValues_all_rows|].
  unfold toTypedValues. by rewrite readRows_rows.
Qed.

(** X17.  With an empty user ID [QueryUsageSummary] fails before anything
    else happens: the result is the wrapped error of the builder, whatever
    [ToSql] and the BigQuery client would do, so no query is built or
    run. *)
Theorem QueryUsageSummary_needs_user opts (creatorID : string) spec :
  QueryUsageSummary ToSql Read opts "" creatorID spec
  = inr (Wrapf "error building usage summary query" (Errorf "userID cannot be empty")).
Proof. reflexivity. Qed.

(** X18.  When the query is built and runs without error,
    [QueryUsageSummary] returns no row and no error for an empty result,
    the row for a result of one row, and an error that tells the number of
    rows for a larger result. *)
Theorem QueryUsageSummary_row_count opts (userID creatorID : string) spec
    (sql : string) (args : list Arg) rows :
  userID ≠ "" →
  ToSql (usageSummaryBuilder (HourlyUsageTable opts) userID creatorID spec)
    = inl (sql, args) →
  Read {| SQL := sql; Parameters := args;
          MaxBytesBilled := MaxBytesBilledPerBigQuery opts |} = inl (inl <$> rows) →
  QueryUsageSummary ToSql Read opts userID creatorID spec
  = match rows with
    | [] => inl None
    | [row] => inl (Some row)
    | _ => inr (TooManyRows (length rows))
    end.
Proof.
  intros Huser Hsql Hread. unfold QueryUsageSummary, buildUsageSummaryQuery.
  rewrite decide_False by done. rewrite Hsql.
  unfold doBigQuery, toBigQueryParameters. rewrite list_fmap_id, Hread.
  rewrite toTypedValues_all_rows.
  destruct rows as [|row [|row' rows]]; [done|done|].
  rewrite bool_decide_eq_true_2 by (simpl; lia). done.
Qed.

(** X19.  An error of the BigQuery client reaches the caller wrapped, and
    never as a row: whether the query cannot be run or a row cannot be
    read, the result is an error that wraps the client's. *)
Theorem QueryUsageSummary_client_errors opts (userID creatorID : string) spec
    (sql : string) (args : list Arg) rows (err : Err) it :
  userID ≠ "" →
  ToSql (usageSummaryBuilder (HourlyUsageTable opts) userID creatorID spec)
    = inl (sql, args) →
  (Read {| SQL := sql; Parameters := args;
           MaxBytesBilled := MaxBytesBilledPerBigQuery opts |} = inr err →
   QueryUsageSummary ToSql Read opts userID creatorID spec
   = inr (Wrapf "bigquery error" (Wrapf "error running query" err)))
  ∧ (Read {| SQL := sql; Parameters := args;
             MaxBytesBilled := MaxBytesBilledPerBigQuery opts |}
       = inl ((inl <$> rows) ++ inr err :: it) →
     QueryUsageSummary ToSql Read opts userID creatorID spec
     = inr (Wrapf "bigquery error" (Wrapf "error reading query result" err))).
Proof.
  intros Huser Hsql. unfold QueryUsageSummary, buildUsageSummaryQuery.
  rewrite decide_False by done. rewrite Hsql.
  unfold doBigQuery, toBigQueryParameters. rewrite list_fmap_id.
  split; intros ->; [done|].
  unfold toTypedValues. by rewrite readRows_rows.
Qed.

(** X20.  Every usage summary query is scoped and bounded: it reads the
    given table, returns at most two rows, groups by user, and its
    conditions are, in order, the creator conditions (present exactly when
    the filter of the spec names a creator, and bound to the [creatorID]
    argument), the lower time bound (inclusive) and the upper time bound
    (exclusive) when given, and last the condition on the user, which is
    there for every non-empty user ID. *)
Theorem usage_summary_query_scope (table userID creatorID : string) spec :
  userID ≠ "" →
  let q := usageSummaryBuilder table userID creatorID spec in
  FromTable q = Some table
  ∧ LimitRows q = Some 2%N
  ∧ GroupBys q = ["user_id"]
  ∧ Wheres q =
      (if decide (CreatorID (Filter spec) = "") then []
       else [("creator_id_type = ?", [ArgString "unverified"]);
             ("creator_id = ?", [ArgString creatorID])])
      ++ (match From spec with
          | Some from => [("time >= timestamp_millis(?)", [ArgInt from])]
          | None => []
          end)
      ++ (match To spec with
          | Some to => [("time < timestamp_millis(?)", [ArgInt to])]
          | None => []
          end)
      ++ [("user_id = ?", [ArgString userID])].
Proof.
  intros Huser q. subst q. unfold usageSummaryBuilder, withUserIdFilter.
  rewrite (decide_False (P := userID = "")) by done.
  destruct (decide (CreatorID (Filter spec) ≠ "")) as [Hc|Hc%dec_stable];
    [rewrite (decide_False (P := CreatorID (Filter spec) = "")) by done
    |rewrite (decide_True (P := CreatorID (Filter spec) = "")) by done];
    destruct (From spec), (To spec); done.
Qed.

End usage_queries.

Section usage_witnesses.
Import usage.

Lemma QueryUsageSummary_row_count_witness :
  QueryUsageSummary (RowT:=nat) (λ _, inl ("select", [ArgString "u1"]))
    (λ _, inl [inl 7; inl 8]) (mkOptions "usage" 1000) "u1" "" (mkSpec None None (mkFilter "" ""))
  = inr (TooManyRows 2).
Proof.
  apply (QueryUsageSummary_row_count (RowT:=nat) (λ _, inl ("select", [ArgString "u1"]))
           (λ _, inl [inl 7; inl 8]) (mkOptions "usage" 1000) "u1" ""
           (mkSpec None None (mkFilter "" "")) "select" [ArgString "u1"] [7; 8]);
    [discriminate|reflexivity|reflexivity].
Defined.

Lemma QueryUsageSummary_client_errors_witness :
  QueryUsageSummary (RowT:=nat) (λ _, inl ("select", [ArgString "u1"]))
    (λ _, inl [inl 7; inr (External "quota")]) (mkOptions "usage" 1000) "u1" ""
    (mkSpec None None (mkFilter "" ""))
  = inr (Wrapf "bigquery error" (Wrapf "error reading query result" (External "quota"))).
Proof.
  apply (proj2 (QueryUsageSummary_client_errors (RowT:=nat)
           (λ _, inl ("select", [ArgString "u1"]))
           (λ _, inl [inl 7; inr (External "quota")]) (mkOptions "usage" 1000) "u1" ""
           (mkSpec None None (mkFilter "" "")) "select" [ArgString "u1"] [7]
           (External "quota") [] ltac:(discriminate) eq_refl)).
  reflexivity.
Defined.

Lemma usage_summary_query_scope_witness :
  Wheres (usageSummaryBuilder "usage" "u1" "c9"
            (mkSpec (Some 1000%Z) None (mkFilter "c1" "")))
  = [("creator_id_type = ?", [ArgString "unverified"]);
     ("creator_id = ?", [ArgString "c9"]);
     ("time >= timestamp_millis(?)", [ArgInt 1000]);
     ("user_id = ?", [ArgString "u1"])].
Proof.
  apply (proj2 (proj2 (proj2 (usage_summary_query_scope "usage" "u1" "c9"
           (mkSpec (Some 1000%Z) None (mkFilter "c1" "")) ltac:(discriminate))))).
Defined.

End usage_witnesses.

(* ===================================================================== *)
(** * Validation of a views query                                          *)
(* ===================================================================== *)

Section views_validation.
Import views.

Implicit Types (lp : Livepeer) (userID assetID streamID : string).

(** X21.  [Validate] asks the Livepeer client at most once: for the asset
    when an asset ID is given, whether or not a stream ID is given too; for
    the stream when only a stream ID is given; and not at all, succeeding,
    when neither is given. *)
Theorem Validate_calls lp userID assetID streamID :
  (Validate lp userID assetID streamID).1
  = (if decide (assetID = "")
     then if decide (streamID = "") then [] else [CallGetStream streamID]
     else [CallGetAsset assetID])
  ∧ (assetID = "" → streamID = "" → (Validate lp userID assetID streamID).2 = None).
Proof.
  unfold Validate.
  destruct (decide (assetID ≠ "")) as [Ha|Ha%dec_stable].
  - rewrite (decide_False (P := assetID = "")) by done. split; [|done].
    destruct (GetAsset lp assetID) as [[a|] [e|]]; repeat case_decide;
      simpl; try done; by destruct (isNotExists e).
  - rewrite (decide_True (P := assetID = "")) by done.
    destruct (decide (streamID ≠ "")) as [Hs|Hs%dec_stable].
    + rewrite (decide_False (P := streamID = "")) by done. split; [|done].
      destruct (GetStream lp streamID) as [[a|] [e|]]; repeat case_decide;
        simpl; try done; by destruct (isNotExists e).
    + rewrite (decide_True (P := streamID = "")) by done. by split.
Qed.

(** X22.  For an asset, [Validate] succeeds exactly when the client
    returned no error and the asset, if one was returned, belongs to the
    user of the query.  An answer with neither an asset nor an error
    passes. *)
Theorem Validate_asset_ok lp userID assetID streamID
    (asset : option Owned) (err : option LpErr) :
  assetID ≠ "" →
  GetAsset lp assetID = (asset, err) →
  (Validate lp userID assetID streamID).2 = None
  ↔ err = None ∧ ∀ a, asset = Some a → OwnerID a = userID.
Proof.
  intros Ha Hget. unfold Validate. rewrite decide_True by done. rewrite Hget.
  destruct asset as [a|].
  - destruct (decide (userID ≠ OwnerID a)) as [Hne|Heq%dec_stable]; simpl.
    + split; [done|]. intros [_ Hown]. destruct Hne. symmetry. by apply Hown.
    + destruct err as [e|]; simpl.
      * destruct (isNotExists e); simpl; split; try done; by intros [? _].
      * split; [|done]. intros _. split; [done|]. by intros ? [= <-].
  - destruct err as [e|]; simpl.
    + destruct (isNotExists e); simpl; split; try done; by intros [? _].
    + split; [|done]. intros _. by split.
Qed.

(** X23.  An object of another user is refused whatever else the client
    said: when the asset (or, with no asset ID, the stream) that the client
    returned does not belong to the user, the result is the credentials
    error, also when the client returned an error with it. *)
Theorem Validate_other_owner lp userID assetID streamID (a : Owned)
    (err : option LpErr) :
  OwnerID a ≠ userID →
  (assetID ≠ "" → GetAsset lp assetID = (Some a, err) →
   (Validate lp userID assetID streamID).2 = Some ErrAssetCredentials)
  ∧ (assetID = "" → streamID ≠ "" → GetStream lp streamID = (Some a, err) →
     (Validate lp userID assetID streamID).2 = Some ErrStreamCredentials).
Proof.
  intros Hown. unfold Validate. split.
  - intros Ha Hget. rewrite decide_True by done. rewrite Hget.
    by rewrite decide_True by congruence.
  - intros Ha Hs Hget. rewrite decide_False by (by intros ?).
    rewrite decide_True by done. rewrite Hget.
    by rewrite decide_True by congruence.
Qed.

(** X24.  When the client returns no object and an error, the error is
    reported as [ErrAssetNotFound] if [livepeer.ErrNotExists] is anywhere
    in its chain, for a stream as well as for an asset, and as an error
    that wraps it otherwise. *)
Theorem Validate_not_found lp userID assetID streamID (e : LpErr) :
  let reported := if isNotExists e then ErrAssetNotFound else ErrGetting e in
  (assetID ≠ "" → GetAsset lp assetID = (None, Some e) →
   (Validate lp userID assetID streamID).2 = Some reported)
  ∧ (assetID = "" → streamID ≠ "" → GetStream lp streamID = (None, Some e) →
     (Validate lp userID assetID streamID).2 = Some reported).
Proof.
  intros reported. subst reported. unfold Validate. split.
  - intros Ha Hget. rewrite decide_True by done. rewrite Hget.
    by destruct (isNotExists e).
  - intros Ha Hs Hget. rewrite decide_False by (by intros ?).
    rewrite decide_True by done. rewrite Hget.
    by destruct (isNotExists e).
Qed.

End views_validation.

Section views_witnesses.
Import views views_samples.

Lemma Validate_calls_witness : (Validate lp "u1" "" "").2 = None.
Proof. exact (proj2 (Validate_calls lp "u1" "" "") eq_refl eq_refl). Defined.

Lemma Validate_asset_ok_witness : (Validate lp "u1" "a1" "s1").2 = None.
Proof.
  apply (Validate_asset_ok lp "u1" "a1" "s1"
           (Some {| PlaybackID := "p1"; OwnerID := "u1" |}) None);
    [discriminate|reflexivity|].
  split; [reflexivity|]. by intros a [= <-].
Defined.

Lemma Validate_other_owner_witness :
  (Validate lp "u2" "a1" "").2 = Some ErrAssetCredentials.
Proof.
  apply (proj1 (Validate_other_owner lp "u2" "a1" ""
                  {| PlaybackID := "p1"; OwnerID := "u1" |} None ltac:(discriminate)));
    [discriminate|reflexivity].
Defined.

Lemma Validate_not_found_witness :
  (Validate lp "u1" "" "s1").2 = Some ErrAssetNotFound.
Proof.
  apply (proj2 (Validate_not_found lp "u1" "" "s1" (LpWrap "get stream" ErrNotExists)));
    [reflexivity|discriminate|reflexivity].
Defined.

End views_witnesses.

(* ===================================================================== *)
(** * The routes and their guards                                          *)
(* ===================================================================== *)

Section route_guards.
Import routes.

Variable Join : list string → string.

(** X25.  How the routes are guarded.  Every route answers [GET] only and
    [cors] is around all of them.  The health check and the metrics route
    have no middleware at all, so they are never behind authorization; the
    metrics route exists exactly when Prometheus is on.  Every stream route
    starts with [streamStatus], then [regionProxy]; the views route has no
    [streamStatus].  With an authorization URL every API route ends with
    the authorization for that URL; without one no route has any. *)
Theorem routes_guarded (opts : APIHandlerOptions) :
  let '(around, router) := NewHandler Join opts in
  around = [cors]
  ∧ Forall (λ rt, method rt = "GET") router
  ∧ Forall (λ rt, servesAPI rt = false → middlewares rt = []) router
  ∧ (Exists (λ rt, target rt = promhttpHandler) router ↔ Prometheus opts = true)
  ∧ Forall (λ rt, servesStream rt = true →
                  take 2 (middlewares rt)
                  = [streamStatus; regionProxy (RegionalHostFormat opts) (OwnRegion opts)])
           router
  ∧ Forall (λ rt, servesStream rt = false → streamStatus ∉ middlewares rt) router
  ∧ Forall (λ rt, servesAPI rt = true →
                  if decide (AuthURL opts = "")
                  then ∀ url, authorization url ∉ middlewares rt
                  else last (middlewares rt) = Some (authorization (AuthURL opts)))
           router.
Proof.
  destruct opts as [sn root auth fmt region prom].
  unfold NewHandler, addStreamHealthHandlers, addViewershipHandlers.
  cbn [Prometheus AuthURL RegionalHostFormat OwnRegion APIRoot].
  destruct prom; destruct (decide (auth ≠ "")) as [Hauth|Hauth%dec_stable];
    cbn [app].
  all: split; [done|].
  all: split; [by repeat constructor|].
  all: split; [by repeat constructor|].
  all: split; [rewrite !Exists_cons, Exists_nil; cbn [target]; naive_solver|].
  all: split;
    [repeat (apply Forall_cons_2 || apply Forall_nil_2);
     cbn [servesStream target middlewares take]; done|].
  all: split;
    [repeat (apply Forall_cons_2 || apply Forall_nil_2);
     cbn [servesStream target middlewares]; intros; try done; set_solver|].
  all: repeat (apply Forall_cons_2 || apply Forall_nil_2);
    cbn [servesAPI target middlewares]; intros; try done;
    case_decide; try done; try (intros url; set_solver).
Qed.

End route_guards.

Section route_guards_witness.
Import routes.

Lemma routes_guarded_witness :
  Forall (λ rt, servesAPI rt = true →
                last (middlewares rt) = Some (authorization "http://auth"))
         (NewHandler (λ parts, "/api") (mkOptions "" "/api" "http://auth" "" "" true)).2.
Proof.
  pose proof (routes_guarded (λ parts, "/api")
                (mkOptions "" "/api" "http://auth" "" "" true)) as H.
  cbv beta iota delta [NewHandler] in H. cbn [Prometheus] in H.
  destruct H as (_ & _ & _ & _ & _ & _ & H). exact H.
Defined.

End route_guards_witness.

(* ===================================================================== *)
(** * A caller on its own                                                  *)
(* ===================================================================== *)

Section lone_caller.
Import health.

(** X26.  The sequential [GetOrCreate] is the concurrent one without
    interference: a single caller that takes its two steps with nobody in
    between returns what [GetOrCreate] returns and leaves the store that
    [GetOrCreate] leaves. *)
Theorem GetOrCreate_alone (m : string) (C : list ConditionType) (s : RecordStorage) :
  run [0; 0] ([Calling m C], s)
  = ([Returned m (GetOrCreate m C s).1], (GetOrCreate m C s).2).
Proof.
  pose proof (GetOrCreate_two_steps m C s) as Hsteps.
  unfold run, stepAt. cbn [foldl fst snd lookup list_lookup].
  destruct (stepCaller (Calling m C) s) as [c1 s1]. cbn [fst snd insert list_insert].
  cbn [lookup list_lookup]. rewrite Hsteps. done.
Qed.

End lone_caller.

Section more_worked_requests.
Import api.

Lemma parse_errors_first_witness :
  subscribeEvents samples.plainSSE samples.served samples.core []
    (samples.request (None, Some "bad id") (None, None) (None, Some "bad to") true)
  = [respondError StatusBadRequest [ErrorString "bad id"; ErrorString "bad to"]].
Proof.
  apply (parse_errors_first samples.plainSSE samples.served samples.core []
           (samples.request (None, Some "bad id") (None, None) (None, Some "bad to") true)).
  discriminate.
Defined.

End more_worked_requests.
